(** * libtask: events, composite waits, continuations and shared futures

    A shallow embedding of [event.hpp] (the wait-free event, selected by
    [GPD_EVENT_IMPL == GPD_EVENT_IMPL_WAITFREE]), of the continuation
    wrapper and stack allocator of [switch.hpp], and of the listener
    multiplexer of [shared_future.hpp]. *)

From stdpp Require Import gmap list.
From Stdlib Require Import ZArith Lia.

Local Open Scope Z_scope.

(** ** The event layer ([event.hpp]) *)
Module Event.

(** A non-null [waiter*].  The two process-wide waiters [noop_waiter] and
    [delete_waiter] are globals with fixed, distinct addresses; every other
    waiter object lives at some address [a]. *)
Inductive waiter_ref : Type :=
| noop_waiter
| delete_waiter
| waiter_at (a : nat).

#[global] Instance waiter_ref_eq_dec : EqDecision waiter_ref.
Proof. solve_decision. Defined.

(** [waiter*]: [None] is the null pointer. *)
Abbreviation waiter_ptr := (option waiter_ref).

(** [static constexpr waiter* empty = 0] *)
Definition empty : waiter_ptr := None.

(** [static constexpr waiter* signaled = &noop_waiter] *)
Definition signaled : waiter_ptr := Some noop_waiter.

(** The three logical states of the comment "the event can be in three
    states: empty, waited, signaled", decoded from the pointer word:
    "waited is any value non empty non signaled". *)
Inductive state_t : Type :=
| Empty
| Waited (w : waiter_ref)
| Signaled.

Definition decode (s : waiter_ptr) : state_t :=
  match s with
  | None => Empty
  | Some noop_waiter => Signaled
  | Some w => Waited w
  end.

(** Waiter objects other than the two globals: a countdown latch with its
    count, or a user-defined waiter whose [signal] receives the event it now
    owns and may do as it pleases with the event heap. *)
Inductive waiter_obj : Type :=
| countdown_latch (count : Z)
| user_waiter (body : nat -> gmap nat waiter_ptr -> gmap nat waiter_ptr).

Inductive latch_op : Type :=
| Reset
| Wait (target : Z).

(** The program state. *)
Record world : Type := World {
  (** live [event] objects: address to the value of [std::atomic<waiter*> state] *)
  events : gmap nat waiter_ptr;
  (** live waiter objects, by address *)
  waiters : gmap nat waiter_obj;
  (** every call [w->signal(event_ptr(e))] made so far, as [(w, e)]: the
      event is handed over by owning pointer *)
  calls : list (waiter_ref * nat);
  (** every [reset]/[wait] call made on a latch so far, as [(latch, op)] *)
  latch_log : list (nat * latch_op);
  (** what the producer threads will do while the consumer is blocked:
      successive bursts of events on which [signal()] is called *)
  producers : list (list nat)
}.

Definition set_events (f : gmap nat waiter_ptr -> gmap nat waiter_ptr) (σ : world) : world :=
  World (f (events σ)) (waiters σ) (calls σ) (latch_log σ) (producers σ).

Definition set_waiters (f : gmap nat waiter_obj -> gmap nat waiter_obj) (σ : world) : world :=
  World (events σ) (f (waiters σ)) (calls σ) (latch_log σ) (producers σ).

Definition log_call (c : waiter_ref * nat) (σ : world) : world :=
  World (events σ) (waiters σ) (calls σ ++ [c]) (latch_log σ) (producers σ).

Definition log_latch (c : nat * latch_op) (σ : world) : world :=
  World (events σ) (waiters σ) (calls σ) (latch_log σ ++ [c]) (producers σ).

Definition set_producers (p : list (list nat)) (σ : world) : world :=
  World (events σ) (waiters σ) (calls σ) (latch_log σ) p.

(** Ways in which an execution can go wrong. *)
Inductive fault : Type :=
| assertion_failed     (* an [assert] does not hold *)
| invalid_pointer      (* a null or dangling pointer is dereferenced *)
| blocked_forever.     (* a blocking wait that no producer will ever end *)

Inductive result (A : Type) : Type :=
| Ok (a : A) (σ : world)
| Fault (f : fault).
Arguments Ok {A} a σ.
Arguments Fault {A} f.

(** Computations over the world that may go wrong. *)
Definition M (A : Type) : Type := world -> result A.

#[global] Instance M_ret : MRet M := fun A a σ => Ok a σ.
#[global] Instance M_bind : MBind M := fun A B f m σ =>
  match m σ with
  | Ok a σ' => f a σ'
  | Fault e => Fault e
  end.

Definition fail {A : Type} (e : fault) : M A := fun _ => Fault e.

(** [assert(b)] *)
Definition assert (b : bool) : M unit :=
  if b then mret tt else fail assertion_failed.

(** *** Atomic operations on [event::state] *)

(** [state.load(std::memory_order_acquire)] *)
Definition load (this : nat) : M waiter_ptr := fun σ =>
  match events σ !! this with
  | Some s => Ok s σ
  | None => Fault invalid_pointer
  end.

(** [state.exchange(v)] *)
Definition exchange (this : nat) (v : waiter_ptr) : M waiter_ptr := fun σ =>
  match events σ !! this with
  | Some s => Ok s (set_events <[this := v]> σ)
  | None => Fault invalid_pointer
  end.

(** [state.compare_exchange_strong(expected, desired)]; the write-back to
    the local [expected] on failure is never read by the callers. *)
Definition compare_exchange_strong (this : nat) (expected desired : waiter_ptr) : M bool := fun σ =>
  match events σ !! this with
  | Some s =>
      if decide (s = expected)
      then Ok true (set_events <[this := desired]> σ)
      else Ok false σ
  | None => Fault invalid_pointer
  end.

(** *** Waiters *)

(** The virtual call [w->signal(event_ptr(p))] on a non-null [w]:
    - [noop_waiter_t::signal] is [p.release()]: the event is left alone;
    - [delete_waiter_t::signal] lets [p] go out of scope: the event is
      destroyed;
    - a countdown latch releases [p] and increases its count by one;
    - a user waiter runs its body. *)
Definition waiter_signal (w : waiter_ref) (p : nat) : M unit := fun σ =>
  let σ := log_call (w, p) σ in
  match w with
  | noop_waiter => Ok tt σ
  | delete_waiter => Ok tt (set_events (delete p) σ)
  | waiter_at a =>
      match waiters σ !! a with
      | Some (countdown_latch c) =>
          Ok tt (set_waiters <[a := countdown_latch (c + 1)]> σ)
      | Some (user_waiter body) => Ok tt (set_events (body p) σ)
      | None => Fault invalid_pointer
      end
  end.

(** [w->signal(event_ptr(p))] through a possibly null [w]. *)
Definition call_signal (w : waiter_ptr) (p : nat) : M unit :=
  match w with
  | Some r => waiter_signal r p
  | None => fail invalid_pointer
  end.

(** *** [struct event] *)

(** [waiter* get_waiter() const] *)
Definition get_waiter (this : nat) : M waiter_ptr := load this.

(** [void signal()] *)
Definition signal (this : nat) : M unit :=
  w ← exchange this signaled;
  if decide (w ≠ None) then call_signal w this else mret tt.

(** [bool try_wait(waiter* w)] *)
Definition try_wait (this : nat) (w : waiter_ptr) : M bool :=
  assert (bool_decide (w ≠ None));;
  old_w ← get_waiter this;
  if decide (old_w ≠ signaled)
  then compare_exchange_strong this old_w w
  else mret false.

(** [void wait(waiter* w)] *)
Definition wait (this : nat) (w : waiter_ptr) : M unit :=
  b ← try_wait this w;
  if negb b then call_signal w this else mret tt.

(** [bool dismiss_wait(waiter* )] *)
Definition dismiss_wait (this : nat) (_ : waiter_ptr) : M bool :=
  w ← get_waiter this;
  if decide (w = None) then mret true
  else if decide (w ≠ signaled)
       then compare_exchange_strong this w empty
       else mret false.

(** A waiter that can be called: one of the two globals, or a live object. *)
Definition live_waiter (σ : world) (w : waiter_ref) : Prop :=
  match w with
  | waiter_at a => is_Some (waiters σ !! a)
  | _ => True
  end.

(** [event * get_event(event *e) { return e; }]: a range of waitables is a
    list of [event*], [None] being a null entry. *)
Definition get_event (x : option nat) : option nat := x.

(** The non-null entries of a range, in order. *)
Definition non_null (range : list (option nat)) : list nat := omap get_event range.

(** [try_wait(w)] called on each event of a list in turn; the answers. *)
Fixpoint try_wait_each (w : waiter_ptr) (es : list nat) : M (list bool) :=
  match es with
  | [] => mret []
  | e :: rest =>
      b ← try_wait e w;
      bs ← try_wait_each w rest;
      mret (b :: bs)
  end.

(** How many answers of a list are [b]. *)
Definition answers (b : bool) (bs : list bool) : Z :=
  Z.of_nat (length (filter (λ x, x = b) bs)).

(** The loop of [wait_many], with the two counters as accumulators.  The
    [std::size_t] counters are bounded by the length of the range, so they
    never wrap around and are kept as unbounded integers. *)
Fixpoint wait_many_loop (w : waiter_ptr) (range : list (option nat))
    (signaled waited : Z) : M (Z * Z) :=
  match range with
  | [] => mret (signaled, waited)
  | i :: rest =>
      match get_event i with
      | Some e =>
          b ← try_wait e w;
          if b : bool
          then wait_many_loop w rest signaled (waited + 1)
          else wait_many_loop w rest (signaled + 1) waited
      | None => wait_many_loop w rest signaled waited
      end
  end.

(** [static std::pair<std::size_t, std::size_t> wait_many(waiter * w, Iter begin, Iter end)] *)
Definition wait_many (w : waiter_ptr) (range : list (option nat)) : M (Z * Z) :=
  wait_many_loop w range 0 0.

Fixpoint dismiss_wait_many_loop (w : waiter_ptr) (range : list (option nat))
    (count : Z) : M Z :=
  match range with
  | [] => mret count
  | i :: rest =>
      match get_event i with
      | Some e =>
          b ← dismiss_wait e w;
          dismiss_wait_many_loop w rest (count + (if b : bool then 1 else 0))
      | None => dismiss_wait_many_loop w rest count
      end
  end.

(** [static std::size_t dismiss_wait_many(waiter * w, Iter begin, Iter end)] *)
Definition dismiss_wait_many (w : waiter_ptr) (range : list (option nat)) : M Z :=
  dismiss_wait_many_loop w range 0.

(** *** The countdown latch *)

(** The producer threads of one burst: each calls [signal()] on its event. *)
Fixpoint run_producers (burst : list nat) : M unit :=
  match burst with
  | [] => mret tt
  | e :: rest => signal e;; run_producers rest
  end.

(** Modelled from the spec: the latch type is a template argument of the wait
    functions and [struct CountdownLatch] is only declared, as documentation
    of the concept; [reset] sets the count to 0. *)
Definition latch_reset (latch : nat) : M unit := fun σ =>
  match waiters σ !! latch with
  | Some (countdown_latch _) =>
      Ok tt (set_waiters <[latch := countdown_latch 0]> (log_latch (latch, Reset) σ))
  | _ => Fault invalid_pointer
  end.

(** Modelled from the spec: "blocks until count >= target, then atomically
    subtracts target", which is also what the concept documentation in
    [event.hpp] says: "each invocation of wait(n) consumes n previous
    invocations and decreases the count; wait will not return until count is
    at least n".  While the consumer is blocked the producers run, one burst
    after the other; a burst is a group of [signal()] calls that all land
    before the consumer runs again.  With the count too low and no producer
    left, the consumer stays blocked. *)
Fixpoint latch_block (latch : nat) (target : Z) (bursts : list (list nat))
    (σ : world) {struct bursts} : result unit :=
  match waiters σ !! latch with
  | Some (countdown_latch c) =>
      if decide (target <= c)
      then Ok tt (set_producers bursts
                    (set_waiters <[latch := countdown_latch (c - target)]> σ))
      else match bursts with
           | [] => Fault blocked_forever
           | burst :: rest =>
               match run_producers burst σ with
               | Ok _ σ' => latch_block latch target rest σ'
               | Fault e => Fault e
               end
           end
  | _ => Fault invalid_pointer
  end.

Definition latch_wait (latch : nat) (target : Z) : M unit := fun σ =>
  latch_block latch target (producers σ) (log_latch (latch, Wait target) σ).

(** *** The wait entry points *)

(** [wait_adl(latch, e)] for an event [e] *)
Definition wait_adl (latch : nat) (e : nat) : M unit :=
  latch_reset latch;;
  wait e (Some (waiter_at latch));;
  latch_wait latch 1.

(** [wait_all_adl(latch, events)] *)
Definition wait_all_adl (latch : nat) (range : list (option nat)) : M unit :=
  latch_reset latch;;
  r ← wait_many (Some (waiter_at latch)) range;
  let waited := r.2 in
  if decide (waited ≠ 0) then latch_wait latch waited else mret tt.

(** [wait_any_adl(latch, events)]; [pending] is a [std::ptrdiff_t]. *)
Definition wait_any_adl (latch : nat) (range : list (option nat)) : M unit :=
  latch_reset latch;;
  r ← wait_many (Some (waiter_at latch)) range;
  let signaled := r.1 in
  let waited := r.2 in
  assert (bool_decide (signaled + waited <= Z.of_nat (length range)));;
  (if decide (signaled = 0) then latch_wait latch 1 else mret tt);;
  dismissed ← dismiss_wait_many (Some (waiter_at latch)) range;
  assert (bool_decide (dismissed <= waited));;
  let pending := waited - dismissed in
  assert (bool_decide (pending >= 0));;
  assert (bool_decide (signaled ≠ 0 ∨ pending >= 1));;
  pending ← (if decide (signaled = 0)
             then assert (bool_decide (pending >= 1));; mret (pending - 1)
             else mret pending);
  if decide (pending ≠ 0) then latch_wait latch pending else mret tt.

(** *** Bookkeeping for the proofs about [wait_any] *)

(** How many events of a list are signaled. *)
Fixpoint count_signaled (m : gmap nat waiter_ptr) (es : list nat) : Z :=
  match es with
  | [] => 0
  | e :: rest =>
      (if decide (m !! e = Some signaled) then 1 else 0) + count_signaled m rest
  end.

(** Every event of the list has the latch registered or is signaled. *)
Definition registered (latch : nat) (es : list nat) (m : gmap nat waiter_ptr) : Prop :=
  ∀ e, e ∈ es → m !! e = Some (Some (waiter_at latch)) ∨ m !! e = Some signaled.

(** The latch has counted the signaled events of the list, less the [k]
    already accounted for. *)
Definition counted (latch : nat) (es : list nat) (k : Z) (σ : world) : Prop :=
  registered latch es (events σ) ∧
  waiters σ !! latch = Some (countdown_latch (count_signaled (events σ) es - k)).

(** *** Example worlds *)

(** A world with one event at address 0, on which the latch at address 0 is
    registered, and one signaled event at address 1. *)
Definition example_world : world :=
  World (<[0%nat := Some (waiter_at 0)]> (<[1%nat := signaled]> ∅))
        (<[0%nat := countdown_latch 0]> ∅) [] [] [].

(** Three empty events at addresses 0, 1 and 2, a latch at address 0 with a
    stale count, and two producers that will signal events 1 and 2 in one
    burst. *)
Definition three_events_world : world :=
  World (<[0%nat := empty]> (<[1%nat := empty]> (<[2%nat := empty]> ∅)))
        (<[0%nat := countdown_latch 5]> ∅) [] [] [[1%nat; 2%nat]].

(** A world with one empty event at address 0. *)
Definition empty_event_world : world :=
  World (<[0%nat := empty]> ∅) ∅ [] [] [].

(** *** Construction *)

(** [event(bool empty = true) : state(empty ? event::empty : signaled) {}]:
    an event constructed at address [this]. *)
Definition event_new (this : nat) (is_empty : bool) : M unit := fun σ =>
  Ok tt (set_events <[this := if is_empty then empty else signaled]> σ).

(** *** [wait_any_adl] among running producers *)

(** The other threads get to run: the next burst of producers, if any. *)
Definition interleave : M unit := fun σ =>
  match producers σ with
  | [] => Ok tt σ
  | burst :: rest => run_producers burst (set_producers rest σ)
  end.

(** The first phase of [wait_any_adl], lines 354 to 362 of [event.hpp]: the
    registration, and the wait when nothing was found signaled.  It hands
    [(signaled, waited)] to the second phase. *)
Definition wait_any_register (latch : nat) (range : list (option nat)) : M (Z * Z) :=
  latch_reset latch;;
  r ← wait_many (Some (waiter_at latch)) range;
  let signaled := r.1 in
  let waited := r.2 in
  assert (bool_decide (signaled + waited <= Z.of_nat (length range)));;
  (if decide (signaled = 0) then latch_wait latch 1 else mret tt);;
  mret (signaled, waited).

(** The second phase of [wait_any_adl], lines 364 to 375: the dismissal and
    the wait for the signals that could not be dismissed. *)
Definition wait_any_drain (latch : nat) (range : list (option nat))
    (signaled waited : Z) : M unit :=
  dismissed ← dismiss_wait_many (Some (waiter_at latch)) range;
  assert (bool_decide (dismissed <= waited));;
  let pending := waited - dismissed in
  assert (bool_decide (pending >= 0));;
  assert (bool_decide (signaled ≠ 0 ∨ pending >= 1));;
  pending ← (if decide (signaled = 0)
             then assert (bool_decide (pending >= 1));; mret (pending - 1)
             else mret pending);
  if decide (pending ≠ 0) then latch_wait latch pending else mret tt.

(** [wait_any_adl] run with the producers let in between its two phases.
    The consumer does not block there, so this is where a signal that lands
    on a registered event before its dismissal is not seen by the sequential
    run: such a signal has reached the latch, its event cannot be dismissed,
    and the last wait on the latch has something to consume also when the
    registration had found an event signaled. *)
Definition wait_any_among_producers (latch : nat) (range : list (option nat)) : M unit :=
  r ← wait_any_register latch range;
  interleave;;
  wait_any_drain latch range r.1 r.2.

(** A signaled event at address 0, two empty events at addresses 1 and 2, a
    latch at address 0, and a producer that will signal event 1. *)
Definition presignaled_world : world :=
  World (<[0%nat := signaled]> (<[1%nat := empty]> (<[2%nat := empty]> ∅)))
        (<[0%nat := countdown_latch 0]> ∅) [] [] [[1%nat]].

End Event.

(** ** Continuations and stack allocation ([switch.hpp]) *)
Module Switch.

(** Modelled from the spec: [cont] and [switch_pair] are declared in
    [switch_base.hpp]; a continuation "carries a (stack_pointer,
    transfer_parameter) pair", both raw addresses, 0 being null. *)
Record cont : Type := Cont { stack_pointer : Z }.

Record switch_pair : Type := SwitchPair { sp : cont; parm : Z }.

(** [{{0},0}] *)
Definition null_pair : switch_pair := SwitchPair (Cont 0) 0.

(** [continuation<Result(Args...)>]: its only data member is
    [switch_pair pair]. *)
Record continuation : Type := Continuation { pair : switch_pair }.

(** [continuation() : pair{{0},0} {}] *)
Definition continuation_default : continuation := Continuation null_pair.

(** [explicit continuation(switch_pair pair) : pair(pair) {}] *)
Definition continuation_of_pair (p : switch_pair) : continuation := Continuation p.

(** [bool has_data() const { return pair.parm; }] *)
Definition has_data (c : continuation) : bool :=
  negb (parm (pair c) =? 0).

(** [bool terminated() const { return !pair.sp; }] *)
Definition terminated (c : continuation) : bool :=
  stack_pointer (sp (pair c)) =? 0.

(** [explicit operator bool() const { return !terminated() && has_data(); }] *)
Definition to_bool (c : continuation) : bool :=
  negb (terminated c) && has_data c.

(** [switch_pair pilfer()]: the returned pair and the continuation as it is
    left behind. *)
Definition pilfer (c : continuation) : switch_pair * continuation :=
  let result := pair c in
  (result, Continuation null_pair).

(** [continuation(continuation&& rhs) : pair(rhs.pilfer()) {}]: the new
    continuation and the moved-from [rhs]. *)
Definition continuation_move (rhs : continuation) : continuation * continuation :=
  let '(p, rhs') := pilfer rhs in
  (Continuation p, rhs').

(** [~continuation() { assert(terminated()); }]: [None] when the assertion
    fails. *)
Definition destroy (c : continuation) : option unit :=
  if terminated c then Some tt else None.

(** [continuation& operator=(continuation rhs)]: [rhs] is a by-value
    parameter, destroyed when the operator returns. *)
Definition assign (this rhs : continuation) : option continuation :=
  if terminated this
  then let '(p, rhs') := pilfer rhs in
       match destroy rhs' with
       | Some _ => Some (Continuation p)
       | None => None
       end
  else None.

(** *** Stack allocation *)

Inductive exn : Type :=
| bad_alloc
| other_exception (payload : nat).

Inductive outcome (A : Type) : Type :=
| Returns (a : A)
| Throws (e : exn)
| Aborts.            (* a failed [assert] *)
Arguments Returns {A} a.
Arguments Throws {A} e.
Arguments Aborts {A}.

Definition outcome_map {A B : Type} (g : A -> B) (o : outcome A) : outcome B :=
  match o with
  | Returns a => Returns (g a)
  | Throws e => Throws e
  | Aborts => Aborts
  end.

(** What [::posix_memalign(&result, alignment, size)] can return: 0 with
    [result] set, or one of the two error codes that [allocate] tests. *)
Inductive memalign_result : Type :=
| memalign_ok (result : Z)
| ENOMEM
| EINVAL.

Section CreateContext.

(** The C library's heap and its [posix_memalign] and [free]. *)
Variable heap : Type.
Variable posix_memalign : Z -> Z -> heap -> memalign_result * heap.
Variable free : Z -> heap -> heap.

(** The system state: the heap, and the [allocate] requests made on a stack
    allocator so far, as [(alignment, size)]. *)
Record sys : Type := Sys { mem : heap; stack_requests : list (Z * Z) }.

(** A [StackAlloc]: [allocate(size)] and [deallocate(ptr)]. *)
Record stack_allocator : Type := StackAllocator {
  allocate : Z -> sys -> outcome Z * sys;
  deallocate : Z -> sys -> sys
}.

(** [static const size_t alignment = 16;] *)
Definition alignment : Z := 16.

(** [default_stack_allocator::allocate] *)
Definition default_allocate (size : Z) (s : sys) : outcome Z * sys :=
  let '(ret, h) := posix_memalign alignment size (mem s) in
  let s' := Sys h (stack_requests s ++ [(alignment, size)]) in
  match ret with
  | EINVAL => (Aborts, s')
  | ENOMEM => (Throws bad_alloc, s')
  | memalign_ok result => (Returns result, s')
  end.

(** [default_stack_allocator::deallocate] *)
Definition default_deallocate (ptr : Z) (s : sys) : sys :=
  Sys (free ptr (mem s)) (stack_requests s).

Definition default_stack_allocator : stack_allocator :=
  StackAllocator default_allocate default_deallocate.

(** [size_t stack_size = 1024*1024] *)
Definition default_stack_size : Z := 1024 * 1024.

(** The functor type [F], [stack_bottom] (from [switch_base.hpp]) and
    [details::run_startup_trampoline_into], which bottoms out in the assembly
    leaf [execute_into]: none of the three is part of the sources, they are
    parameters.  The trampoline receives the deleter as the allocator and the
    stack pointer it captures. *)
Variable F : Type.
Variable stack_bottom : Z -> Z -> Z.
Variable run_startup_trampoline_into :
  cont -> F -> stack_allocator * Z -> sys -> outcome switch_pair * sys.

(** [create_context<Signature>(f, stack_size, alloc)] *)
Definition create_context (f : F) (stack_size : Z) (alloc : stack_allocator)
    (s : sys) : outcome continuation * sys :=
  match allocate alloc stack_size s with
  | (Returns stackp, s1) =>
      let cs := Cont (stack_bottom stackp stack_size) in
      let deleter := (alloc, stackp) in
      let '(r, s2) := run_startup_trampoline_into cs f deleter s1 in
      (outcome_map continuation_of_pair r, s2)
  | (Throws e, s1) => (Throws e, s1)
  | (Aborts, s1) => (Aborts, s1)
  end.

(** [callcc(F f) { return create_context<Sig>(f); }]: [create_context] with
    its default stack size and allocator. *)
Definition callcc (f : F) : sys -> outcome continuation * sys :=
  create_context f default_stack_size default_stack_allocator.

End CreateContext.

(** *** Exit continuations and exit tokens *)

(** [struct exit_continuation]: its only data member is [switch_pair pair]. *)
Record exit_continuation : Type := ExitContinuation { exit_pair : switch_pair }.

(** [explicit exit_continuation(switch_pair pair) : pair(pair) {}] *)
Definition exit_of_pair (p : switch_pair) : exit_continuation := ExitContinuation p.

(** [exit_continuation::pilfer()] *)
Definition exit_pilfer (c : exit_continuation) : switch_pair * exit_continuation :=
  let result := exit_pair c in
  (result, ExitContinuation null_pair).

(** [exit_continuation::terminated()] *)
Definition exit_terminated (c : exit_continuation) : bool :=
  stack_pointer (sp (exit_pair c)) =? 0.

(** [~exit_continuation() { assert(!pair.sp); }] *)
Definition exit_destroy (c : exit_continuation) : option unit :=
  if stack_pointer (sp (exit_pair c)) =? 0 then Some tt else None.

(** [exit_continuation(exit_continuation&& rhs) : pair(rhs.pilfer()) { }]:
    the new object and the moved-from [rhs]. *)
Definition exit_move (rhs : exit_continuation) : exit_continuation * exit_continuation :=
  let '(p, rhs') := exit_pilfer rhs in
  (ExitContinuation p, rhs').

(** [exit_continuation(continuation<Signature>&& rhs) : pair(rhs.pilfer()) { }] *)
Definition exit_of_continuation (rhs : continuation) : exit_continuation * continuation :=
  let '(p, rhs') := pilfer rhs in
  (ExitContinuation p, rhs').

(** [exit_continuation& operator=(exit_continuation rhs)]: no assertion on
    [this]; the by-value [rhs] is destroyed when the operator returns. *)
Definition exit_assign (this rhs : exit_continuation) : option exit_continuation :=
  let '(p, rhs') := exit_pilfer rhs in
  match exit_destroy rhs' with
  | Some _ => Some (ExitContinuation p)
  | None => None
  end.

(** What can be thrown across a trampoline: an ordinary exception, an
    [exit_exception] with its [exit_to], or an [abnormal_exit_exception]
    with its [exit_to] and the [std::exception_ptr ptr] it has captured
    ([None] for a null [exception_ptr]). *)
#[local] Unset Elimination Schemes.
Inductive thrown : Type :=
| plain (e : exn)
| exit_exception (exit_to : exit_continuation)
| abnormal_exit_exception (exit_to : exit_continuation) (ptr : option thrown).
#[local] Set Elimination Schemes.

(** [explicit abnormal_exit_exception(exit_continuation exit_to)]:
    [exit_exception(std::move(exit_to)), ptr(std::current_exception())];
    [current] is the exception being handled where the token is built. *)
Definition make_abnormal_exit (current : option thrown) (exit_to : exit_continuation)
    : thrown :=
  abnormal_exit_exception (exit_move exit_to).1 current.

(** How a call that may throw such tokens ends. *)
Inductive completion (A : Type) : Type :=
| Value (a : A)
| Raise (t : thrown)
| Abort.
Arguments Value {A} a.
Arguments Raise {A} t.
Arguments Abort {A}.

(** What a spliced functor returns: nothing, or a reference to an object at
    an address. *)
Inductive functor_result : Type :=
| returns_void
| returns_ref (address : Z).

(** [details::get_address]: [f(); return 0;] for a [void] functor,
    [return &f();] otherwise. *)
Definition get_address (r : functor_result) : Z :=
  match r with
  | returns_void => 0
  | returns_ref a => a
  end.

Section Trampolines.

Variable heap : Type.

(** [details::splice_trampoline<F>(p, from)] *)
Definition splice_trampoline
    (f : sys heap -> completion functor_result * sys heap) (from : cont)
    (s : sys heap) : completion switch_pair * sys heap :=
  let r := SwitchPair from 0 in
  match f s with
  | (Value x, s') => (Value (SwitchPair (sp r) (get_address x)), s')
  | (Raise t, s') => (Raise (make_abnormal_exit (Some t) (exit_of_pair r)), s')
  | (Abort, s') => (Abort, s')
  end.

(** [details::splicecc_trampoline<FromSignature, F>(p, from)]:
    [return f(from_cont(r)).pilfer();] *)
Definition splicecc_trampoline
    (f : continuation -> sys heap -> completion continuation * sys heap) (from : cont)
    (s : sys heap) : completion switch_pair * sys heap :=
  let r := SwitchPair from 0 in
  match f (continuation_of_pair r) s with
  | (Value c, s') => (Value (pilfer c).1, s')
  | (Raise t, s') => (Raise t, s')
  | (Abort, s') => (Abort, s')
  end.

(** [details::cleanup_trampoline_args<Deleter>]; the deleter of
    [create_context] is the allocator with the stack it has allocated. *)
Record cleanup_trampoline_args : Type := CleanupArgs {
  deleter : stack_allocator heap * Z;
  excp : option thrown
}.

(** [details::cleanup_trampoline<Deleter>(arg, cont)].  Modelled from the
    spec: [guard] comes from [guard.hpp], which is not part of the sources;
    the guarded functor runs when the scope is left, by return or by the
    rethrown exception: the trampoline "invokes the stack deleter and, if a
    captured exception payload was carried across, rethrows it". *)
Definition cleanup_trampoline (arg : cleanup_trampoline_args) (_ : cont)
    (s : sys heap) : completion switch_pair * sys heap :=
  let s' := deallocate heap (deleter arg).1 (deleter arg).2 s in
  match excp arg with
  | Some t => (Raise t, s')
  | None => (Value null_pair, s')
  end.

(** [execute_into(arg, sp, trampoline)] is the assembly leaf of
    [switch_base.hpp]: a parameter. *)
Variable execute_into :
  cleanup_trampoline_args -> cont ->
  (cleanup_trampoline_args -> cont -> sys heap -> completion switch_pair * sys heap) ->
  sys heap -> completion switch_pair * sys heap.

(** [details::startup_trampoline<Continuation, F, Deleter>(arg, sp)], with
    the functor and the cleanup arguments of [*arg].  An exception that is
    neither of the two exit tokens is not caught. *)
Definition startup_trampoline
    (functor : continuation -> sys heap -> completion continuation * sys heap)
    (cleanup_args : cleanup_trampoline_args) (sp0 : cont)
    (s : sys heap) : completion switch_pair * sys heap :=
  let pair0 := SwitchPair sp0 0 in
  let finish (target : cont) (args : cleanup_trampoline_args) (s1 : sys heap) :=
    if stack_pointer target =? 0
    then (Abort, s1)           (* assert(sp && "invalid target stack") *)
    else execute_into args target cleanup_trampoline s1 in
  match functor (continuation_of_pair pair0) s with
  | (Value c, s1) => finish (sp (pilfer c).1) cleanup_args s1
  | (Raise (abnormal_exit_exception exit_to ptr), s1) =>
      finish (sp (exit_pilfer exit_to).1) (CleanupArgs (deleter cleanup_args) ptr) s1
  | (Raise (exit_exception exit_to), s1) =>
      finish (sp (exit_pilfer exit_to).1) cleanup_args s1
  | (Raise (plain e), s1) => (Raise (plain e), s1)
  | (Abort, s1) => (Abort, s1)
  end.

End Trampolines.

Section SignalExit.

Variable heap : Type.

(** The functor that [signal_exit(c)] splices on top of [c] with
    [splicecc]: [throw exit_exception(exit_continuation(std::move(c)))],
    [c] being the continuation it is handed. *)
Definition signal_exit_functor (c : continuation) (s : sys heap)
    : completion continuation * sys heap :=
  (Raise (exit_exception (exit_of_continuation c).1), s).

End SignalExit.

End Switch.

(** ** The listener multiplexer ([shared_future.hpp]) *)
Module SharedFuture.

(** Modelled from the spec: [promise<bool>] and [future<bool>] come from
    [future.hpp], which is not part of the sources.  A promise and the future
    obtained from it share one state, here a cell of the store: [None] while
    the promise is unfulfilled, [Some v] once [set_value(v)] has run. *)
Abbreviation store := (list (option bool)).

(** [promise<bool>] and [future<bool>]: the index of the shared cell. *)
Abbreviation promise := nat.
Abbreviation future := nat.

(** [promise<bool>()]: a new, unfulfilled shared state. *)
Definition promise_new (st : store) : promise * store :=
  (length st, st ++ [None]).

(** [p.get_future()] *)
Definition get_future (p : promise) : future := p.

(** [p.set_value(v)] *)
Definition set_value (p : promise) (v : bool) (st : store) : store :=
  <[p := Some v]> st.

(** [f.ready()] *)
Definition ready (f : future) (st : store) : bool :=
  match st !! f with
  | Some (Some _) => true
  | _ => false
  end.

(** [f.valid()]: the future refers to a shared state. *)
Definition valid (f : option future) : bool :=
  match f with
  | Some _ => true
  | None => false
  end.

Section Multiplexer.

(** The result type [T]. *)
Variable T : Type.

(** [shared_state_multiplexer<T>]: the [listeners] deque and the
    [shared_state_union<T>] base, holding the result once it has arrived.
    The mutex only serialises accesses and is left out. *)
Record shared_state_multiplexer : Type := Multiplexer {
  listeners : list promise;
  shared_state : option T
}.

(** The program state: the promises' shared states and the multiplexers
    behind the [shared_ptr]s, by address. *)
Record world : Type := World {
  cells : store;
  muxes : gmap nat shared_state_multiplexer
}.

(** [future<bool> add_listener()]:
    [lock(), listeners.emplace_back(), listeners.back().get_future()] *)
Definition add_listener (this : nat) (σ : world) : option (future * world) :=
  match muxes σ !! this with
  | Some m =>
      let '(p, st) := promise_new (cells σ) in
      let m' := Multiplexer (listeners m ++ [p]) (shared_state m) in
      match last (listeners m') with
      | Some back => Some (get_future back, World st (<[this := m']> (muxes σ)))
      | None => None
      end
  | None => None
  end.

(** [for(auto&& p : tmp_listeners) p.set_value(true);] *)
Fixpoint set_all (tmp_listeners : list promise) (st : store) : store :=
  match tmp_listeners with
  | [] => st
  | p :: rest => set_all rest (set_value p true st)
  end.

(** [void signal(event_ptr other)]: [original] is the shared state behind
    [other], whose result is moved into the multiplexer; [None] when
    [assert(original)] fails. *)
Definition signal (this : nat) (original : option T) (σ : world) : option world :=
  match muxes σ !! this with
  | Some m =>
      match original with
      | Some v =>
          let tmp_listeners := listeners m in
          let m' := Multiplexer [] (Some v) in
          Some (World (set_all tmp_listeners (cells σ)) (<[this := m']> (muxes σ)))
      | None => None
      end
  | None => None
  end.

(** [shared_state_multiplexer(future<T>&& future)] is
    [future.get_shared_state()->wait(this)]: the multiplexer, allocated at
    address [this], registers on the event of the source future; when that
    event is already signaled, [source] holding its result, [event::wait]
    calls [this->signal] on the spot. *)
Definition multiplexer_new (this : nat) (source : option T) (σ : world) : option world :=
  let σ1 := World (cells σ) (<[this := Multiplexer [] None]> (muxes σ)) in
  match source with
  | Some v => signal this (Some v) σ1
  | None => Some σ1
  end.

(** [shared_future<T>]: [std::shared_ptr<shared_state_multiplexer<T>> state]
    and [future<bool> listener]. *)
Record shared_future : Type := SharedFutureOf {
  state : option nat;
  listener : option future
}.

(** [shared_future(future<T>&& future)]: [state(new shared_state_multiplexer<T>(std::move(future)))],
    then [listener(state->add_listener())]. *)
Definition shared_future_of_future (this : nat) (source : option T) (σ : world)
    : option (shared_future * world) :=
  match multiplexer_new this source σ with
  | Some σ1 =>
      match add_listener this σ1 with
      | Some (f, σ2) => Some (SharedFutureOf (Some this) (Some f), σ2)
      | None => None
      end
  | None => None
  end.

(** [shared_future(const shared_future& rhs)] *)
Definition shared_future_copy (rhs : shared_future) (σ : world)
    : option (shared_future * world) :=
  match state rhs with
  | Some m =>
      match add_listener m σ with
      | Some (f, σ') => Some (SharedFutureOf (Some m) (Some f), σ')
      | None => None
      end
  | None =>
      (* [listener] is [future<bool>()] and [assert(listener.valid())] fails *)
      None
  end.

(** [bool ready() const { return listener.ready(); }] *)
Definition shared_future_ready (x : shared_future) (σ : world) : bool :=
  match listener x with
  | Some f => ready f (cells σ)
  | None => false
  end.

End Multiplexer.

Arguments Multiplexer {T} listeners shared_state.
Arguments listeners {T} s.
Arguments shared_state {T} s.
Arguments World {T} cells muxes.
Arguments cells {T} w.
Arguments muxes {T} w.
Arguments add_listener {T} this σ.
Arguments signal {T} this original σ.
Arguments multiplexer_new {T} this source σ.
Arguments shared_future_of_future {T} this source σ.
Arguments shared_future_copy {T} rhs σ.
Arguments shared_future_ready {T} x σ.

(** *** Example world *)

(** A multiplexer at address 0 with one listener queued, not yet signaled. *)
Definition one_listener_world : world nat :=
  World [None] (<[0%nat := Multiplexer [0%nat] None]> ∅).

End SharedFuture.

(** ** Properties of the event layer *)
Module EventFacts.
Import Event.

(** Unfolds the monadic plumbing. *)
Ltac unfold_M :=
  unfold mbind, M_bind, mret, M_ret, fail, assert, get_waiter, load,
    exchange, compare_exchange_strong.

Lemma waiter_signal_calls w p σ σ' :
  waiter_signal w p σ = Ok tt σ' → calls σ' = calls σ ++ [(w, p)].
Proof.
  unfold waiter_signal. destruct w as [| |a]; simpl.
  - by intros [= <-].
  - by intros [= <-].
  - destruct (waiters σ !! a) as [[c|body]|]; simpl; try done; by intros [= <-].
Qed.

Lemma waiter_signal_live w p σ :
  live_waiter σ w → ∃ σ', waiter_signal w p σ = Ok tt σ'.
Proof.
  unfold waiter_signal, live_waiter. destruct w as [| |a]; simpl; eauto.
  intros [[c|body] ->]; eauto.
Qed.

(** C1: [signal()] stores [signaled] in the event; from [Waited w] it then
    calls [w->signal(event_ptr(this))], exactly once; from [Empty] it calls
    nothing, the event stays with its owner and is [Signaled]. *)
Theorem signal_transitions (this : nat) (s : waiter_ptr) (σ : world) :
  events σ !! this = Some s →
  let σ1 := set_events <[this := signaled]> σ in
  events σ1 !! this = Some signaled ∧
  match decode s with
  | Empty =>
      signal this σ = Ok tt σ1 ∧ calls σ1 = calls σ
  | Waited w =>
      signal this σ = waiter_signal w this σ1 ∧
      (live_waiter σ w →
       ∃ σ', signal this σ = Ok tt σ' ∧ calls σ' = calls σ ++ [(w, this)])
  | Signaled =>
      ∃ σ', signal this σ = Ok tt σ' ∧ events σ' !! this = Some signaled
  end.
Proof.
  intros Hs σ1. split.
  { subst σ1. simpl. by rewrite lookup_insert_eq. }
  unfold signal. unfold_M. rewrite Hs. fold σ1.
  destruct s as [[| |a]|]; simpl.
  - eexists. split; [reflexivity|]. simpl. by rewrite lookup_insert_eq.
  - split; [done|]. intros _. eexists. split; [reflexivity|]. done.
  - split; [done|]. intros Hlive.
    destruct (waiter_signal_live (waiter_at a) this σ1 Hlive) as [σ' Hσ'].
    exists σ'. split; [done|]. by apply waiter_signal_calls in Hσ'.
  - done.
Qed.

Lemma signal_transitions_witness :
  signal 0%nat example_world
  = waiter_signal (waiter_at 0) 0%nat (set_events <[0%nat := signaled]> example_world).
Proof.
  exact (proj1 (proj2 (signal_transitions 0%nat (Some (waiter_at 0)) example_world eq_refl))).
Defined.

(** C2, amended: on an [Empty] event [try_wait(w)] returns true and stores
    [w] in the event, for every non-null waiter [w]; this leaves the event
    [Waited w] for every [w] other than [noop_waiter], whose address is the
    [signaled] sentinel (with [noop_waiter] the event is then [Signaled]).
    On a [Signaled] event it returns false and changes nothing, whatever [w]
    is. *)
Theorem try_wait_registers (this : nat) (w : waiter_ref) (s : waiter_ptr) (σ : world) :
  events σ !! this = Some s →
  (decode s = Empty →
   ∃ σ', try_wait this (Some w) σ = Ok true σ' ∧
         σ' = set_events <[this := Some w]> σ ∧
         events σ' !! this = Some (Some w) ∧
         (w ≠ noop_waiter → decode <$> events σ' !! this = Some (Waited w)) ∧
         (w = noop_waiter → decode <$> events σ' !! this = Some Signaled)) ∧
  (decode s = Signaled → try_wait this (Some w) σ = Ok false σ).
Proof.
  intros Hs. split.
  - intros Hd. eexists. split; [|split; [reflexivity|]].
    + unfold try_wait. unfold_M. simpl. rewrite Hs.
      destruct s as [[| |a]|]; try discriminate. simpl.
      rewrite Hs. simpl. reflexivity.
    + simpl. rewrite lookup_insert_eq. simpl.
      split; [done|]. split; [by destruct w | by intros ->].
  - intros Hd. unfold try_wait. unfold_M. simpl. rewrite Hs.
    by destruct s as [[| |a]|].
Qed.

Lemma try_wait_registers_witness :
  (∃ σ', try_wait 0%nat (Some delete_waiter) empty_event_world = Ok true σ' ∧
         σ' = set_events <[0%nat := Some delete_waiter]> empty_event_world ∧
         events σ' !! 0%nat = Some (Some delete_waiter) ∧
         decode <$> events σ' !! 0%nat = Some (Waited delete_waiter)) ∧
  try_wait 1%nat (Some delete_waiter) example_world = Ok false example_world.
Proof.
  split.
  - destruct (proj1 (try_wait_registers 0%nat delete_waiter empty empty_event_world
                       eq_refl) eq_refl) as (σ' & Hrun & Hσ' & Hstored & Hwaited & _).
    exists σ'. split; [exact Hrun|]. split; [exact Hσ'|]. split; [exact Hstored|].
    apply Hwaited. discriminate.
  - exact (proj2 (try_wait_registers 1%nat delete_waiter signaled example_world eq_refl)
             eq_refl).
Defined.

(** C2 as stated fails for the non-null waiter [&noop_waiter]: [try_wait]
    returns true on an empty event, but what it stores is the [signaled]
    sentinel, so the event is [Signaled] and not [Waited]. *)
Lemma try_wait_noop_waiter_counterexample :
  events empty_event_world !! 0%nat = Some empty ∧
  ∃ σ', try_wait 0%nat (Some noop_waiter) empty_event_world = Ok true σ' ∧
        decode <$> events σ' !! 0%nat = Some Signaled ∧
        decode <$> events σ' !! 0%nat ≠ Some (Waited noop_waiter).
Proof.
  split; [reflexivity|]. eexists. split; [reflexivity|]. split; [reflexivity|].
  discriminate.
Qed.

(** C3: with no other thread in between, [dismiss_wait] returns true and
    empties a [Waited] event, returns true on an [Empty] event and false on a
    [Signaled] one, leaving both as they are. *)
Theorem dismiss_wait_cases (this : nat) (w s : waiter_ptr) (σ : world) :
  events σ !! this = Some s →
  match decode s with
  | Waited _ =>
      dismiss_wait this w σ = Ok true (set_events <[this := empty]> σ) ∧
      decode <$> events (set_events <[this := empty]> σ) !! this = Some Empty
  | Empty => dismiss_wait this w σ = Ok true σ
  | Signaled => dismiss_wait this w σ = Ok false σ
  end.
Proof.
  intros Hs. unfold dismiss_wait. unfold_M. rewrite Hs.
  destruct s as [[| |a]|]; simpl; try done.
  - rewrite Hs. simpl. by rewrite lookup_insert_eq.
  - rewrite Hs, decide_True by done. simpl. by rewrite lookup_insert_eq.
Qed.

Lemma dismiss_wait_cases_witness :
  dismiss_wait 0%nat (Some (waiter_at 0)) example_world
  = Ok true (set_events <[0%nat := empty]> example_world).
Proof.
  exact (proj1 (dismiss_wait_cases 0%nat (Some (waiter_at 0)) (Some (waiter_at 0))
                  example_world eq_refl)).
Defined.

(** C7: on a [Signaled] event [wait(w)] gets false from [try_wait(w)] and
    calls [w->signal(event_ptr(this))] at once; on an [Empty] event it
    returns with [w] stored in the event and no call made. *)
Theorem wait_cases (this : nat) (w : waiter_ref) (s : waiter_ptr) (σ : world) :
  events σ !! this = Some s →
  (decode s = Signaled →
   try_wait this (Some w) σ = Ok false σ ∧
   wait this (Some w) σ = waiter_signal w this σ ∧
   (live_waiter σ w →
    ∃ σ', wait this (Some w) σ = Ok tt σ' ∧ calls σ' = calls σ ++ [(w, this)])) ∧
  (decode s = Empty →
   try_wait this (Some w) σ = Ok true (set_events <[this := Some w]> σ) ∧
   ∃ σ', wait this (Some w) σ = Ok tt σ' ∧
         events σ' !! this = Some (Some w) ∧ calls σ' = calls σ).
Proof.
  intros Hs. split; intros Hd.
  - assert (Ht : try_wait this (Some w) σ = Ok false σ).
    { unfold try_wait. unfold_M. simpl. rewrite Hs. by destruct s as [[| |a]|]. }
    assert (Hw : wait this (Some w) σ = waiter_signal w this σ).
    { unfold wait. unfold mbind, M_bind. by rewrite Ht. }
    split; [done|]. split; [done|]. intros Hlive.
    destruct (waiter_signal_live w this σ Hlive) as [σ' Hσ'].
    exists σ'. rewrite Hw. split; [done|]. by apply waiter_signal_calls in Hσ'.
  - assert (Ht : try_wait this (Some w) σ = Ok true (set_events <[this := Some w]> σ)).
    { unfold try_wait. unfold_M. simpl. rewrite Hs.
      destruct s as [[| |a]|]; try discriminate. simpl. by rewrite Hs. }
    split; [done|]. eexists. split.
    + unfold wait. unfold mbind, M_bind. rewrite Ht. reflexivity.
    + simpl. by rewrite lookup_insert_eq.
Qed.

Lemma wait_cases_witness :
  wait 1%nat (Some (waiter_at 0)) example_world
  = waiter_signal (waiter_at 0) 1%nat example_world.
Proof.
  exact (proj1 (proj2 (proj1 (wait_cases 1%nat (waiter_at 0) signaled example_world
                                eq_refl) eq_refl))).
Defined.

(** C10: on a [Signaled] event the exchange of [signal()] returns the
    sentinel, which is [&noop_waiter]; the call it triggers is
    [noop_waiter_t::signal], which only releases the pointer: the event is
    still there, still [Signaled], and nothing else has changed. *)
Theorem signal_twice_benign (this : nat) (σ : world) :
  events σ !! this = Some signaled →
  (∃ σ1, exchange this signaled σ = Ok (Some noop_waiter) σ1 ∧
         signal this σ = waiter_signal noop_waiter this σ1) ∧
  ∃ σ', signal this σ = Ok tt σ' ∧
        events σ' = events σ ∧
        events σ' !! this = Some signaled ∧
        waiters σ' = waiters σ ∧
        calls σ' = calls σ ++ [(noop_waiter, this)].
Proof.
  intros Hs. split.
  - eexists. unfold signal. unfold_M. rewrite Hs. simpl. split; reflexivity.
  - eexists. split.
    + unfold signal. unfold_M. rewrite Hs. simpl. reflexivity.
    + simpl. rewrite (insert_id _ _ _ Hs). by rewrite Hs.
Qed.

Lemma signal_twice_benign_witness :
  ∃ σ', signal 1%nat example_world = Ok tt σ' ∧
        events σ' = events example_world ∧
        events σ' !! 1%nat = Some signaled ∧
        waiters σ' = waiters example_world ∧
        calls σ' = calls example_world ++ [(noop_waiter, 1%nat)].
Proof.
  exact (proj2 (signal_twice_benign 1%nat example_world eq_refl)).
Defined.

(** *** Batched operations *)

Lemma try_wait_eq (this : nat) (w : waiter_ref) (s : waiter_ptr) (σ : world) :
  events σ !! this = Some s →
  try_wait this (Some w) σ =
  if decide (s = signaled) then Ok false σ
  else Ok true (set_events <[this := Some w]> σ).
Proof.
  intros Hs. unfold try_wait. unfold_M. simpl. rewrite Hs.
  destruct (decide (s = signaled)) as [->|Hne].
  - done.
  - rewrite decide_True by done. rewrite Hs. by rewrite decide_True.
Qed.

Lemma dismiss_wait_eq (this : nat) (w s : waiter_ptr) (σ : world) :
  events σ !! this = Some s →
  dismiss_wait this w σ =
  if decide (s = None) then Ok true σ
  else if decide (s = signaled) then Ok false σ
       else Ok true (set_events <[this := empty]> σ).
Proof.
  intros Hs. unfold dismiss_wait. unfold_M. rewrite Hs.
  destruct (decide (s = None)) as [->|Hn]; [done|].
  destruct (decide (s = signaled)) as [->|Hne]; [done|].
  rewrite decide_True by done. rewrite Hs. by rewrite decide_True.
Qed.

Lemma answers_cons (b x : bool) (bs : list bool) :
  answers b (x :: bs) = (if decide (x = b) then 1 else 0) + answers b bs.
Proof.
  unfold answers. rewrite filter_cons. destruct (decide (x = b)); simpl; lia.
Qed.

Lemma answers_total (bs : list bool) :
  answers false bs + answers true bs = Z.of_nat (length bs).
Proof.
  induction bs as [|x bs IH]; [done|].
  rewrite !answers_cons. simpl length. destruct x; simpl; lia.
Qed.

Lemma wait_many_loop_each (w : waiter_ref) (range : list (option nat)) :
  ∀ (σ : world) (signaled0 waited0 : Z),
  (∀ e, e ∈ non_null range → is_Some (events σ !! e)) →
  ∃ bs σ',
    try_wait_each (Some w) (non_null range) σ = Ok bs σ' ∧
    length bs = length (non_null range) ∧
    wait_many_loop (Some w) range signaled0 waited0 σ
    = Ok (signaled0 + answers false bs, waited0 + answers true bs) σ'.
Proof.
  induction range as [|[e|] range IH]; intros σ s0 w0 Hlive.
  - exists [], σ. simpl. unfold mret, M_ret. unfold answers. simpl.
    rewrite !Z.add_0_r. done.
  - simpl in *. destruct (Hlive e) as [s Hs]; [set_solver|].
    unfold mbind, M_bind. rewrite (try_wait_eq e w s σ Hs).
    destruct (decide (s = signaled)) as [->|Hne].
    + destruct (IH σ (s0 + 1) w0) as (bs & σ' & Heach & Hlen & Hloop).
      { intros x Hx. apply Hlive. set_solver. }
      exists (false :: bs), σ'. rewrite Heach, Hloop. unfold mret, M_ret.
      rewrite !answers_cons. simpl.
      split; [done|]. split; [by rewrite Hlen|]. do 2 f_equal; lia.
    + destruct (IH (set_events <[e := Some w]> σ) s0 (w0 + 1))
        as (bs & σ' & Heach & Hlen & Hloop).
      { intros x Hx. simpl. destruct (decide (e = x)) as [->|Hex].
        - rewrite lookup_insert_eq. eauto.
        - rewrite lookup_insert_ne by done. apply Hlive. set_solver. }
      exists (true :: bs), σ'. rewrite Heach, Hloop. unfold mret, M_ret.
      rewrite !answers_cons. simpl.
      split; [done|]. split; [by rewrite Hlen|]. do 2 f_equal; lia.
  - simpl in *. apply IH. done.
Qed.

(** C6: [wait_many(w, begin, end)] calls [try_wait(w)] on the non-null
    entries of the range, in order, and returns how many of these calls
    answered false and how many answered true: the two counts add up to the
    number of non-null entries. *)
Theorem wait_many_counts (w : waiter_ref) (range : list (option nat)) (σ : world) :
  (∀ e, e ∈ non_null range → is_Some (events σ !! e)) →
  ∃ bs σ' signaled waited,
    try_wait_each (Some w) (non_null range) σ = Ok bs σ' ∧
    wait_many (Some w) range σ = Ok (signaled, waited) σ' ∧
    signaled = answers false bs ∧
    waited = answers true bs ∧
    signaled + waited = Z.of_nat (length (non_null range)).
Proof.
  intros Hlive.
  destruct (wait_many_loop_each w range σ 0 0 Hlive) as (bs & σ' & Heach & Hlen & Hloop).
  exists bs, σ', (answers false bs), (answers true bs).
  split; [done|]. split; [unfold wait_many; by rewrite Hloop|]. split; [done|]. split; [done|].
  rewrite <- Hlen. apply answers_total.
Qed.

Lemma wait_many_counts_witness :
  ∃ bs σ' signaled waited,
    try_wait_each (Some (waiter_at 0)) (non_null [Some 1%nat; None; Some 0%nat]) example_world
    = Ok bs σ' ∧
    wait_many (Some (waiter_at 0)) [Some 1%nat; None; Some 0%nat] example_world
    = Ok (signaled, waited) σ' ∧
    signaled = answers false bs ∧
    waited = answers true bs ∧
    signaled + waited = Z.of_nat (length (non_null [Some 1%nat; None; Some 0%nat])).
Proof.
  apply (wait_many_counts (waiter_at 0) [Some 1%nat; None; Some 0%nat] example_world).
  intros e He. simpl in He.
  apply elem_of_cons in He as [->|He]; [by eexists|].
  apply elem_of_cons in He as [->|He]; [by eexists|].
  by apply elem_of_nil in He.
Defined.

(** *** [wait_any] *)

Lemma count_signaled_bounds m es :
  0 ≤ count_signaled m es ≤ Z.of_nat (length es).
Proof.
  induction es as [|e es IH]; simpl; [lia|]. case_decide; lia.
Qed.

Lemma count_signaled_ext m1 m2 es :
  (∀ e, e ∈ es → m1 !! e = Some signaled ↔ m2 !! e = Some signaled) →
  count_signaled m1 es = count_signaled m2 es.
Proof.
  induction es as [|e es IH]; intros Hext; simpl; [done|].
  assert (He : m1 !! e = Some signaled ↔ m2 !! e = Some signaled).
  { apply Hext. apply elem_of_cons. by left. }
  assert (Hrest : count_signaled m1 es = count_signaled m2 es).
  { apply IH. intros x Hx. apply Hext. apply elem_of_cons. by right. }
  rewrite Hrest. f_equal. repeat case_decide; tauto.
Qed.

Lemma count_signaled_insert_ne m es e v :
  e ∉ es → count_signaled (<[e := v]> m) es = count_signaled m es.
Proof.
  intros He. apply count_signaled_ext. intros x Hx.
  rewrite lookup_insert_ne; [done|]. intros ->. done.
Qed.

Lemma count_signaled_insert m es e :
  NoDup es → e ∈ es → m !! e ≠ Some signaled →
  count_signaled (<[e := signaled]> m) es = count_signaled m es + 1.
Proof.
  induction 1 as [|x es Hx Hnd IH]; intros He Hm.
  - by apply elem_of_nil in He.
  - simpl. destruct (decide (x = e)) as [->|Hxe].
    + rewrite lookup_insert_eq, count_signaled_insert_ne by done.
      rewrite decide_True by done. rewrite decide_False by done. lia.
    + rewrite lookup_insert_ne by done. rewrite IH; [lia| |done].
      apply elem_of_cons in He as [->|He]; done.
Qed.

Lemma count_signaled_pos m es e :
  e ∈ es → m !! e = Some signaled → 1 ≤ count_signaled m es.
Proof.
  induction es as [|x es IH]; intros He Hm.
  - by apply elem_of_nil in He.
  - simpl. pose proof (count_signaled_bounds m es).
    apply elem_of_cons in He as [->|He].
    + rewrite decide_True by done. lia.
    + specialize (IH He Hm). case_decide; lia.
Qed.

Lemma length_non_null range :
  (length (non_null range) ≤ length range)%nat.
Proof.
  induction range as [|[e|] range IH]; simpl; lia.
Qed.

Section WaitAny.

Variable latch : nat.

Lemma wait_many_loop_registers (range : list (option nat)) :
  ∀ (σ : world) (signaled0 waited0 : Z),
  NoDup (non_null range) →
  (∀ e, e ∈ non_null range → is_Some (events σ !! e)) →
  ∃ σ',
    wait_many_loop (Some (waiter_at latch)) range signaled0 waited0 σ
    = Ok (signaled0 + count_signaled (events σ) (non_null range),
          waited0 + (Z.of_nat (length (non_null range))
                     - count_signaled (events σ) (non_null range))) σ' ∧
    waiters σ' = waiters σ ∧ latch_log σ' = latch_log σ ∧
    producers σ' = producers σ ∧
    (∀ e, e ∈ non_null range →
          events σ' !! e = if decide (events σ !! e = Some signaled)
                           then Some signaled else Some (Some (waiter_at latch))) ∧
    (∀ x, x ∉ non_null range → events σ' !! x = events σ !! x).
Proof.
  induction range as [|[e|] range IH]; intros σ s0 w0 Hnd Hlive.
  - exists σ. simpl. unfold mret, M_ret. split; [do 2 f_equal; lia|].
    repeat split; try done. intros e He. by apply elem_of_nil in He.
  - simpl in *. apply NoDup_cons in Hnd as [Hne Hnd].
    destruct (Hlive e) as [s Hs]; [set_solver|].
    unfold mbind, M_bind. rewrite (try_wait_eq e _ s σ Hs).
    destruct (decide (s = signaled)) as [->|Hs'].
    + destruct (IH σ (s0 + 1) w0 Hnd) as (σ' & Hloop & Hw & Hl & Hp & Hin & Hout).
      { intros x Hx. apply Hlive. set_solver. }
      exists σ'. rewrite Hloop, decide_True by done.
      split; [do 2 f_equal; lia|]. repeat split; try done.
      * intros x Hx. apply elem_of_cons in Hx as [->|Hx]; [|by apply Hin].
        rewrite Hout by done. rewrite Hs. by rewrite decide_True.
      * intros x Hx. apply Hout. set_solver.
    + destruct (IH (set_events <[e := Some (waiter_at latch)]> σ) s0 (w0 + 1) Hnd)
        as (σ' & Hloop & Hw & Hl & Hp & Hin & Hout).
      { intros x Hx. simpl. rewrite lookup_insert_ne by (intros ->; done).
        apply Hlive. set_solver. }
      simpl in *. exists σ'. rewrite Hloop.
      rewrite count_signaled_insert_ne by done.
      rewrite decide_False by (rewrite Hs; congruence).
      split; [do 2 f_equal; lia|]. repeat split; try done.
      * intros x Hx. apply elem_of_cons in Hx as [->|Hx].
        -- rewrite Hout by done. rewrite lookup_insert_eq.
           rewrite decide_False by (rewrite Hs; congruence). done.
        -- rewrite Hin by done.
           rewrite lookup_insert_ne by (intros ->; done). done.
      * intros x Hx. rewrite Hout by set_solver.
        rewrite lookup_insert_ne by set_solver. done.
  - simpl in *. by apply IH.
Qed.

Lemma dismiss_wait_many_loop_registered (range : list (option nat)) :
  ∀ (σ : world) (count0 : Z),
  NoDup (non_null range) →
  registered latch (non_null range) (events σ) →
  ∃ σ',
    dismiss_wait_many_loop (Some (waiter_at latch)) range count0 σ
    = Ok (count0 + (Z.of_nat (length (non_null range))
                    - count_signaled (events σ) (non_null range))) σ' ∧
    waiters σ' = waiters σ ∧ latch_log σ' = latch_log σ ∧
    producers σ' = producers σ ∧
    (∀ x, x ∉ non_null range → events σ' !! x = events σ !! x).
Proof.
  induction range as [|[e|] range IH]; intros σ c0 Hnd Hreg.
  - exists σ. simpl. unfold mret, M_ret. split; [f_equal; lia|]. done.
  - simpl in *. apply NoDup_cons in Hnd as [Hne Hnd].
    assert (Hrest : ∀ v, registered latch (non_null range) (<[e := v]> (events σ))).
    { intros v x Hx. rewrite lookup_insert_ne by (intros ->; done).
      apply Hreg. set_solver. }
    unfold mbind, M_bind.
    destruct (Hreg e) as [Hs|Hs]; [set_solver| |];
      rewrite (dismiss_wait_eq e _ _ σ Hs); simpl.
    + destruct (IH (set_events <[e := empty]> σ) (c0 + 1) Hnd (Hrest _))
        as (σ' & Hloop & Hw & Hl & Hp & Hout).
      simpl in *. exists σ'. rewrite Hloop.
      rewrite count_signaled_insert_ne by done.
      rewrite decide_False by (rewrite Hs; unfold signaled; congruence).
      split; [f_equal; lia|]. repeat split; try done.
      intros x Hx. rewrite Hout by set_solver.
      rewrite lookup_insert_ne by set_solver. done.
    + destruct (IH σ (c0 + 0) Hnd) as (σ' & Hloop & Hw & Hl & Hp & Hout).
      { intros x Hx. apply Hreg. set_solver. }
      exists σ'. rewrite Hloop. rewrite decide_True by done.
      split; [f_equal; lia|]. repeat split; try done.
      intros x Hx. apply Hout. set_solver.
  - simpl in *. by apply IH.
Qed.

Lemma signal_counted (es : list nat) (k : Z) (e : nat) (σ : world) :
  NoDup es → e ∈ es → counted latch es k σ →
  ∃ σ', signal e σ = Ok tt σ' ∧ counted latch es k σ' ∧
        count_signaled (events σ) es ≤ count_signaled (events σ') es ∧
        1 ≤ count_signaled (events σ') es ∧
        latch_log σ' = latch_log σ ∧ producers σ' = producers σ.
Proof.
  intros Hnd He [Hreg Hcount].
  assert (Hreg' : registered latch es (<[e := signaled]> (events σ))).
  { intros x Hx. destruct (decide (e = x)) as [->|Hex].
    - right. by rewrite lookup_insert_eq.
    - rewrite lookup_insert_ne by done. by apply Hreg. }
  assert (Hpos : 1 ≤ count_signaled (<[e := signaled]> (events σ)) es).
  { apply (count_signaled_pos _ _ e); [done|]. by rewrite lookup_insert_eq. }
  unfold signal. unfold_M. destruct (Hreg e He) as [Hs|Hs]; rewrite Hs; simpl.
  - unfold waiter_signal. simpl. rewrite Hcount.
    assert (Hstep : count_signaled (<[e := signaled]> (events σ)) es
                    = count_signaled (events σ) es + 1).
    { apply count_signaled_insert; [done|done|]. rewrite Hs. unfold signaled. congruence. }
    eexists. split; [reflexivity|]. unfold counted. simpl. rewrite Hstep.
    split; [split; [done|]|].
    + rewrite lookup_insert_eq. do 2 f_equal. lia.
    + repeat split; try done; lia.
  - eexists. split; [reflexivity|]. unfold counted. simpl.
    rewrite (insert_id _ _ _ Hs) in *. repeat split; try done; lia.
Qed.

Lemma run_producers_counted (es : list nat) (k : Z) (burst : list nat) :
  ∀ σ : world,
  NoDup es → (∀ e, e ∈ burst → e ∈ es) → counted latch es k σ →
  ∃ σ', run_producers burst σ = Ok tt σ' ∧ counted latch es k σ' ∧
        count_signaled (events σ) es ≤ count_signaled (events σ') es ∧
        (burst ≠ [] → 1 ≤ count_signaled (events σ') es) ∧
        latch_log σ' = latch_log σ ∧ producers σ' = producers σ.
Proof.
  induction burst as [|e burst IH]; intros σ Hnd Hin Hc.
  - exists σ. simpl. unfold mret, M_ret.
    split; [done|]. split; [done|]. split; [lia|]. split; [congruence|]. done.
  - simpl. unfold mbind, M_bind.
    destruct (signal_counted es k e σ Hnd) as (σ1 & Hsig & Hc1 & Hle1 & Hpos1 & Hl1 & Hp1);
      [apply Hin, elem_of_cons; by left|done|].
    rewrite Hsig.
    destruct (IH σ1 Hnd) as (σ' & Hrun & Hc' & Hle' & _ & Hl' & Hp');
      [intros x Hx; apply Hin, elem_of_cons; by right|done|].
    exists σ'. rewrite Hrun.
    split; [done|]. split; [done|]. split; [lia|]. split; [lia|].
    split; congruence.
Qed.

Lemma latch_block_ready (target c : Z) (bursts : list (list nat)) (σ : world) :
  waiters σ !! latch = Some (countdown_latch c) → target ≤ c →
  latch_block latch target bursts σ
  = Ok tt (set_producers bursts
             (set_waiters <[latch := countdown_latch (c - target)]> σ)).
Proof.
  intros Hw Hle. destruct bursts; simpl; rewrite Hw; by rewrite decide_True.
Qed.

Lemma latch_block_first (es : list nat) (bursts : list (list nat)) :
  ∀ σ : world,
  NoDup es → counted latch es 0 σ →
  (∀ b e, b ∈ bursts → e ∈ b → e ∈ es) →
  1 ≤ count_signaled (events σ) es ∨ (∃ b, b ∈ bursts ∧ b ≠ []) →
  ∃ σ', latch_block latch 1 bursts σ = Ok tt σ' ∧ counted latch es 1 σ' ∧
        1 ≤ count_signaled (events σ') es ∧ latch_log σ' = latch_log σ.
Proof.
  assert (Hready : ∀ bursts σ, counted latch es 0 σ → 1 ≤ count_signaled (events σ) es →
            ∃ σ', latch_block latch 1 bursts σ = Ok tt σ' ∧ counted latch es 1 σ' ∧
                  1 ≤ count_signaled (events σ') es ∧ latch_log σ' = latch_log σ).
  { intros bs σ [Hreg Hcount] Hpos. eexists. split.
    - apply (latch_block_ready 1 _ bs σ Hcount). lia.
    - unfold counted. simpl. split; [split; [done|]|by split].
      rewrite lookup_insert_eq. do 2 f_equal. lia. }
  induction bursts as [|b bursts IH]; intros σ Hnd Hc Hin Hprogress.
  - destruct Hprogress as [Hpos|(b & Hb & _)]; [by apply Hready|].
    by apply elem_of_nil in Hb.
  - destruct (decide (1 ≤ count_signaled (events σ) es)) as [Hpos|Hlow];
      [by apply Hready|].
    destruct Hc as [Hreg Hcount]. simpl. rewrite Hcount.
    rewrite decide_False by lia.
    destruct (run_producers_counted es 0 b σ Hnd) as (σ1 & Hrun & Hc1 & Hle1 & Hpos1 & Hl1 & Hp1);
      [intros x Hx; apply (Hin b x); [apply elem_of_cons; by left|done] |done|].
    rewrite Hrun.
    destruct (IH σ1 Hnd Hc1) as (σ' & Hblock & Hc' & Hpos' & Hl').
    { intros b' x Hb' Hx. apply (Hin b' x); [apply elem_of_cons; by right|done]. }
    { destruct (decide (b = [])) as [->|Hb]; [|left; by apply Hpos1].
      right. destruct Hprogress as [Hpos|(b' & Hb' & Hne)]; [lia|].
      exists b'. split; [|done]. apply elem_of_cons in Hb' as [->|Hb']; done. }
    exists σ'. rewrite Hblock.
    split; [done|]. split; [done|]. split; [done|]. congruence.
Qed.

End WaitAny.

Lemma assert_true (b : bool) (σ : world) : b = true → assert b σ = Ok tt σ.
Proof. by intros ->. Qed.

Lemma latch_wait_ready (latch : nat) (target c : Z) (σ : world) :
  waiters σ !! latch = Some (countdown_latch c) → target ≤ c →
  latch_wait latch target σ
  = Ok tt (set_producers (producers σ)
             (set_waiters <[latch := countdown_latch (c - target)]>
                (log_latch (latch, Wait target) σ))).
Proof.
  intros Hw Hle. unfold latch_wait. by rewrite (latch_block_ready latch target c).
Qed.

(** A run on three empty events: the consumer blocks once, both signals
    land before it dismisses, and it drains the second one. *)
Example wait_any_three_events :
  ∃ σ', wait_any_adl 0 [Some 0%nat; None; Some 1%nat; Some 2%nat] three_events_world
        = Ok tt σ' ∧
        latch_log σ' = [(0%nat, Reset); (0%nat, Wait 1); (0%nat, Wait 1)] ∧
        calls σ' = [(waiter_at 0, 1%nat); (waiter_at 0, 2%nat)] ∧
        events σ' !! 0%nat = Some empty.
Proof. eexists. split; [vm_compute; reflexivity|]. by vm_compute. Qed.

(** *** Scenarios on one event *)

Lemma set_events_id (f : gmap nat waiter_ptr → gmap nat waiter_ptr) (σ : world) :
  f (events σ) = events σ → set_events f σ = σ.
Proof. destruct σ. unfold set_events. simpl. by intros ->. Qed.

Lemma world_eq (σ1 σ2 : world) :
  events σ1 = events σ2 → waiters σ1 = waiters σ2 → calls σ1 = calls σ2 →
  latch_log σ1 = latch_log σ2 → producers σ1 = producers σ2 → σ1 = σ2.
Proof. destruct σ1, σ2. simpl. by intros -> -> -> -> ->. Qed.

Lemma signal_eq (this : nat) (s : waiter_ptr) (σ : world) :
  events σ !! this = Some s →
  signal this σ =
  match s with
  | Some r => waiter_signal r this (set_events <[this := signaled]> σ)
  | None => Ok tt (set_events <[this := signaled]> σ)
  end.
Proof.
  intros Hs. unfold signal. unfold_M. rewrite Hs. by destruct s.
Qed.

Lemma signal_dangling (this : nat) (σ : world) :
  events σ !! this = None → signal this σ = Fault invalid_pointer.
Proof. intros Hs. unfold signal. unfold_M. by rewrite Hs. Qed.

(** X1: registering a waiter on an empty event and dismissing it again is a
    round trip: both calls answer true and the program state is back where
    it was.  The waiter is any waiter but [noop_waiter]. *)
Theorem try_wait_dismiss_round_trip (this : nat) (w : waiter_ref) (σ : world) :
  events σ !! this = Some empty → w ≠ noop_waiter →
  (b1 ← try_wait this (Some w);
   b2 ← dismiss_wait this (Some w);
   mret (b1, b2)) σ = Ok (true, true) σ.
Proof.
  intros Hs Hw. unfold mbind, M_bind.
  rewrite (try_wait_eq this w _ σ Hs). simpl.
  rewrite (dismiss_wait_eq this _ (Some w)) by (simpl; by rewrite lookup_insert_eq).
  simpl. rewrite !decide_False by (unfold signaled; congruence).
  unfold mret, M_ret. f_equal.
  apply world_eq; try done. simpl.
  rewrite insert_insert_eq. by apply insert_id.
Qed.

Lemma try_wait_dismiss_round_trip_witness :
  (b1 ← try_wait 0%nat (Some delete_waiter);
   b2 ← dismiss_wait 0%nat (Some delete_waiter);
   mret (b1, b2)) empty_event_world = Ok (true, true) empty_event_world.
Proof.
  apply (try_wait_dismiss_round_trip 0%nat delete_waiter empty_event_world);
    [reflexivity | discriminate].
Defined.

(** X2: an event constructed empty, on which [try_wait(w)] has registered a
    live waiter, delivers exactly one call [w->signal(event_ptr(this))] when
    it is signaled, and nothing before. *)
Theorem wait_then_signal_calls_once (this : nat) (w : waiter_ref) (σ : world) :
  live_waiter σ w →
  ∃ σ1 σ2,
    (event_new this true;; try_wait this (Some w)) σ = Ok true σ1 ∧
    calls σ1 = calls σ ∧
    signal this σ1 = Ok tt σ2 ∧
    calls σ2 = calls σ ++ [(w, this)].
Proof.
  intros Hlive. unfold mbind, M_bind, event_new.
  set (σ0 := set_events <[this := empty]> σ).
  assert (H0 : events σ0 !! this = Some empty) by (simpl; by rewrite lookup_insert_eq).
  rewrite (try_wait_eq this w _ σ0 H0). simpl.
  set (σ1 := set_events <[this := Some w]> σ0).
  assert (H1 : events σ1 !! this = Some (Some w)) by (simpl; by rewrite lookup_insert_eq).
  destruct (waiter_signal_live w this (set_events <[this := signaled]> σ1)) as [σ2 H2].
  { by destruct w. }
  exists σ1, σ2. split; [done|]. split; [done|].
  rewrite (signal_eq this _ σ1 H1). split; [done|].
  by apply waiter_signal_calls in H2.
Qed.

Lemma wait_then_signal_calls_once_witness :
  ∃ σ1 σ2,
    (event_new 3%nat true;; try_wait 3%nat (Some (waiter_at 0))) example_world = Ok true σ1 ∧
    calls σ1 = calls example_world ∧
    signal 3%nat σ1 = Ok tt σ2 ∧
    calls σ2 = calls example_world ++ [(waiter_at 0, 3%nat)].
Proof.
  apply (wait_then_signal_calls_once 3%nat (waiter_at 0) example_world).
  by eexists.
Defined.

(** X3: dismissal wins.  Once [dismiss_wait] has answered true for a waiter
    registered on an empty event, a later [signal()] calls nobody: the event
    just ends up signaled. *)
Theorem dismissed_waiter_never_called (this : nat) (w : waiter_ref) (σ : world) :
  events σ !! this = Some empty → w ≠ noop_waiter →
  (b1 ← try_wait this (Some w);
   b2 ← dismiss_wait this (Some w);
   signal this;;
   mret (b1, b2)) σ = Ok (true, true) (set_events <[this := signaled]> σ) ∧
  calls (set_events <[this := signaled]> σ) = calls σ.
Proof.
  intros Hs Hw. split; [|done]. unfold mbind, M_bind.
  rewrite (try_wait_eq this w _ σ Hs). simpl.
  rewrite (dismiss_wait_eq this _ (Some w)) by (simpl; by rewrite lookup_insert_eq).
  simpl. rewrite !decide_False by (unfold signaled; congruence).
  set (σ2 := set_events <[this := empty]> (set_events <[this := Some w]> σ)).
  assert (H2 : events σ2 !! this = Some empty) by (simpl; by rewrite lookup_insert_eq).
  rewrite (signal_eq this _ σ2 H2). unfold mret, M_ret. f_equal.
  apply world_eq; try done. simpl. by rewrite !insert_insert_eq.
Qed.

Lemma dismissed_waiter_never_called_witness :
  (b1 ← try_wait 0%nat (Some delete_waiter);
   b2 ← dismiss_wait 0%nat (Some delete_waiter);
   signal 0%nat;;
   mret (b1, b2)) empty_event_world
  = Ok (true, true) (set_events <[0%nat := signaled]> empty_event_world).
Proof.
  exact (proj1 (dismissed_waiter_never_called 0%nat delete_waiter empty_event_world
                  eq_refl ltac:(discriminate))).
Defined.

(** X4: a second [try_wait] on an event that is already waited (the
    precondition "state != waited" broken) answers true and replaces the
    waiter: when the event is signaled only the second waiter is called, the
    first one never hears of it. *)
Theorem try_wait_replaces_waiter (this : nat) (w1 w2 : waiter_ref) (σ : world) :
  events σ !! this = Some (Some w1) → w1 ≠ noop_waiter → live_waiter σ w2 →
  ∃ σ1 σ2,
    try_wait this (Some w2) σ = Ok true σ1 ∧
    events σ1 !! this = Some (Some w2) ∧
    signal this σ1 = Ok tt σ2 ∧
    calls σ2 = calls σ ++ [(w2, this)].
Proof.
  intros Hs Hw1 Hlive.
  rewrite (try_wait_eq this w2 _ σ Hs).
  rewrite decide_False by (unfold signaled; congruence).
  set (σ1 := set_events <[this := Some w2]> σ).
  assert (H1 : events σ1 !! this = Some (Some w2)) by (simpl; by rewrite lookup_insert_eq).
  destruct (waiter_signal_live w2 this (set_events <[this := signaled]> σ1)) as [σ2 H2].
  { by destruct w2. }
  exists σ1, σ2. split; [done|]. split; [done|].
  rewrite (signal_eq this _ σ1 H1). split; [done|].
  by apply waiter_signal_calls in H2.
Qed.

Lemma try_wait_replaces_waiter_witness :
  ∃ σ1 σ2,
    try_wait 0%nat (Some delete_waiter) example_world = Ok true σ1 ∧
    events σ1 !! 0%nat = Some (Some delete_waiter) ∧
    signal 0%nat σ1 = Ok tt σ2 ∧
    calls σ2 = calls example_world ++ [(delete_waiter, 0%nat)].
Proof.
  apply (try_wait_replaces_waiter 0%nat (waiter_at 0) delete_waiter example_world);
    [reflexivity | discriminate | exact I].
Defined.

(** X5: with [delete_waiter] registered, [signal()] destroys the event and
    only that one; the signaler that touches it again dereferences a dangling
    pointer.  [wait(&delete_waiter)] on a signaled event destroys it on the
    spot. *)
Theorem delete_waiter_destroys_event (this : nat) (σ : world) :
  (events σ !! this = Some (Some delete_waiter) →
   ∃ σ', signal this σ = Ok tt σ' ∧
         events σ' = delete this (events σ) ∧
         signal this σ' = Fault invalid_pointer) ∧
  (events σ !! this = Some signaled →
   ∃ σ', wait this (Some delete_waiter) σ = Ok tt σ' ∧
         events σ' = delete this (events σ)).
Proof.
  split; intros Hs.
  - rewrite (signal_eq this _ σ Hs). eexists. split; [reflexivity|]. simpl.
    split; [by rewrite delete_insert_eq|].
    apply signal_dangling. simpl. by rewrite lookup_delete_eq.
  - unfold wait, mbind, M_bind. rewrite (try_wait_eq this _ _ σ Hs).
    rewrite decide_True by done. simpl. eexists. split; reflexivity.
Qed.

Lemma delete_waiter_destroys_event_witness :
  ∃ σ', wait 1%nat (Some delete_waiter) example_world = Ok tt σ' ∧
        events σ' = delete 1%nat (events example_world).
Proof.
  exact (proj2 (delete_waiter_destroys_event 1%nat example_world) eq_refl).
Defined.

(** *** Batched registration and dismissal without producers in between *)

Lemma wait_many_loop_post (w : waiter_ref) (range : list (option nat)) :
  ∀ (σ : world) (signaled0 waited0 : Z),
  w ≠ noop_waiter →
  (∀ e, e ∈ non_null range → is_Some (events σ !! e)) →
  ∃ σ',
    wait_many_loop (Some w) range signaled0 waited0 σ
    = Ok (signaled0 + count_signaled (events σ) (non_null range),
          waited0 + (Z.of_nat (length (non_null range))
                     - count_signaled (events σ) (non_null range))) σ' ∧
    (∀ e, e ∈ non_null range →
          events σ' !! e = if decide (events σ !! e = Some signaled)
                           then Some signaled else Some (Some w)) ∧
    (∀ x, x ∉ non_null range → events σ' !! x = events σ !! x) ∧
    waiters σ' = waiters σ ∧ calls σ' = calls σ ∧
    latch_log σ' = latch_log σ ∧ producers σ' = producers σ.
Proof.
  induction range as [|[e|] range IH]; intros σ s0 w0 Hw Hlive.
  - exists σ. simpl. unfold mret, M_ret. split; [do 2 f_equal; lia|].
    split; [|done]. intros e He. by apply elem_of_nil in He.
  - simpl in *. destruct (Hlive e) as [s Hs]; [apply elem_of_cons; by left|].
    unfold mbind, M_bind. rewrite (try_wait_eq e w s σ Hs).
    destruct (decide (s = signaled)) as [->|Hs'].
    + destruct (IH σ (s0 + 1) w0 Hw) as (σ' & Hloop & Hin & Hout & Hrest).
      { intros x Hx. apply Hlive, elem_of_cons. by right. }
      exists σ'. rewrite Hloop, decide_True by done.
      split; [do 2 f_equal; lia|]. split; [|split; [|done]].
      * intros x Hx. destruct (decide (x ∈ non_null range)) as [Hx'|Hx'];
          [by apply Hin|].
        apply elem_of_cons in Hx as [->|Hx]; [|done].
        rewrite Hout by done. rewrite Hs. by rewrite decide_True.
      * intros x Hx. apply Hout. intros Hx'. apply Hx, elem_of_cons. by right.
    + assert (Hsig : ∀ x, <[e := Some w]> (events σ) !! x = Some signaled
                          ↔ events σ !! x = Some signaled).
      { intros x. destruct (decide (e = x)) as [<-|Hex].
        - rewrite lookup_insert_eq, Hs. unfold signaled in *. split; congruence.
        - by rewrite lookup_insert_ne. }
      destruct (IH (set_events <[e := Some w]> σ) s0 (w0 + 1) Hw)
        as (σ' & Hloop & Hin & Hout & Hrest).
      { intros x Hx. simpl. destruct (decide (e = x)) as [<-|Hex].
        - rewrite lookup_insert_eq. by eexists.
        - rewrite lookup_insert_ne by done. apply Hlive, elem_of_cons. by right. }
      simpl in *. exists σ'. rewrite Hloop.
      rewrite (count_signaled_ext _ (events σ)) by (intros x _; apply Hsig).
      rewrite decide_False by (rewrite Hs; congruence).
      split; [do 2 f_equal; lia|]. split; [|split; [|done]].
      * intros x Hx. destruct (decide (x ∈ non_null range)) as [Hx'|Hx'].
        -- rewrite (Hin x Hx'). pose proof (Hsig x). repeat case_decide; tauto.
        -- apply elem_of_cons in Hx as [->|Hx]; [|done].
           rewrite Hout by done. rewrite lookup_insert_eq.
           rewrite decide_False by (rewrite Hs; congruence). done.
      * intros x Hx. rewrite Hout by (intros Hx'; apply Hx, elem_of_cons; by right).
        rewrite lookup_insert_ne; [done|]. intros ->. apply Hx, elem_of_cons. by left.
  - simpl in *. by apply IH.
Qed.

Lemma dismiss_wait_many_loop_post (w : waiter_ptr) (range : list (option nat)) :
  ∀ (σ : world) (count0 : Z),
  (∀ e, e ∈ non_null range → is_Some (events σ !! e)) →
  ∃ σ',
    dismiss_wait_many_loop w range count0 σ
    = Ok (count0 + (Z.of_nat (length (non_null range))
                    - count_signaled (events σ) (non_null range))) σ' ∧
    (∀ e, e ∈ non_null range →
          events σ' !! e = if decide (events σ !! e = Some signaled)
                           then Some signaled else Some empty) ∧
    (∀ x, x ∉ non_null range → events σ' !! x = events σ !! x) ∧
    waiters σ' = waiters σ ∧ calls σ' = calls σ ∧
    latch_log σ' = latch_log σ ∧ producers σ' = producers σ.
Proof.
  induction range as [|[e|] range IH]; intros σ c0 Hlive.
  - exists σ. simpl. unfold mret, M_ret. split; [f_equal; lia|].
    split; [|done]. intros e He. by apply elem_of_nil in He.
  - simpl in *. destruct (Hlive e) as [s Hs]; [apply elem_of_cons; by left|].
    unfold mbind, M_bind. rewrite (dismiss_wait_eq e w s σ Hs).
    destruct (decide (s = signaled)) as [->|Hs'].
    + rewrite decide_False by done.
      destruct (IH σ (c0 + 0)) as (σ' & Hloop & Hin & Hout & Hrest).
      { intros x Hx. apply Hlive, elem_of_cons. by right. }
      exists σ'. rewrite Hloop, decide_True by done.
      split; [f_equal; lia|]. split; [|split; [|done]].
      * intros x Hx. destruct (decide (x ∈ non_null range)) as [Hx'|Hx'];
          [by apply Hin|].
        apply elem_of_cons in Hx as [->|Hx]; [|done].
        rewrite Hout by done. rewrite Hs. by rewrite decide_True.
      * intros x Hx. apply Hout. intros Hx'. apply Hx, elem_of_cons. by right.
    + assert (Hstep : ∃ σ1, (if decide (s = None) then Ok true σ
                             else Ok true (set_events <[e := empty]> σ)) = Ok true σ1 ∧
                events σ1 = <[e := empty]> (events σ) ∧
                waiters σ1 = waiters σ ∧ calls σ1 = calls σ ∧
                latch_log σ1 = latch_log σ ∧ producers σ1 = producers σ).
      { case_decide as Hn.
        - exists σ. split; [done|]. split; [|done].
          symmetry. apply insert_id. by rewrite Hs, Hn.
        - eexists. split; [reflexivity|]. done. }
      destruct Hstep as (σ1 & Hd & He1 & Hw1 & Hc1 & Hl1 & Hp1).
      rewrite Hd.
      assert (Hsig : ∀ x, events σ1 !! x = Some signaled
                          ↔ events σ !! x = Some signaled).
      { intros x. rewrite He1. destruct (decide (e = x)) as [<-|Hex].
        - rewrite lookup_insert_eq, Hs. unfold signaled, empty in *. split; congruence.
        - by rewrite lookup_insert_ne. }
      destruct (IH σ1 (c0 + 1)) as (σ' & Hloop & Hin & Hout & Hw' & Hc' & Hl' & Hp').
      { intros x Hx. rewrite He1. destruct (decide (e = x)) as [<-|Hex].
        - rewrite lookup_insert_eq. by eexists.
        - rewrite lookup_insert_ne by done. apply Hlive, elem_of_cons. by right. }
      exists σ'. rewrite Hloop.
      rewrite (count_signaled_ext _ (events σ)) by (intros x _; apply Hsig).
      rewrite decide_False by (rewrite Hs; congruence).
      split; [f_equal; lia|]. split; [|split; [|repeat split; congruence]].
      * intros x Hx. destruct (decide (x ∈ non_null range)) as [Hx'|Hx'].
        -- rewrite (Hin x Hx'). pose proof (Hsig x). repeat case_decide; tauto.
        -- apply elem_of_cons in Hx as [->|Hx]; [|done].
           rewrite Hout by done. rewrite He1, lookup_insert_eq.
           rewrite decide_False by (rewrite Hs; congruence). done.
      * intros x Hx. rewrite Hout by (intros Hx'; apply Hx, elem_of_cons; by right).
        rewrite He1. rewrite lookup_insert_ne; [done|].
        intros ->. apply Hx, elem_of_cons. by left.
  - simpl in *. by apply IH.
Qed.

(** X6: what [wait_many] leaves behind when no producer runs meanwhile.  For
    a waiter other than [noop_waiter] and a range of live events (possibly
    with repeats), it counts as signaled the entries found signaled and as
    waited all the others, every event of the range that was not signaled
    now holds the waiter, and nothing else has changed: no callback has run
    and the events outside the range are untouched. *)
Theorem wait_many_registers (w : waiter_ref) (range : list (option nat)) (σ : world) :
  w ≠ noop_waiter →
  (∀ e, e ∈ non_null range → is_Some (events σ !! e)) →
  ∃ σ',
    wait_many (Some w) range σ
    = Ok (count_signaled (events σ) (non_null range),
          Z.of_nat (length (non_null range))
          - count_signaled (events σ) (non_null range)) σ' ∧
    (∀ e, e ∈ non_null range →
          events σ' !! e = if decide (events σ !! e = Some signaled)
                           then Some signaled else Some (Some w)) ∧
    (∀ x, x ∉ non_null range → events σ' !! x = events σ !! x) ∧
    waiters σ' = waiters σ ∧ calls σ' = calls σ.
Proof.
  intros Hw Hlive.
  destruct (wait_many_loop_post w range σ 0 0 Hw Hlive)
    as (σ' & Hloop & Hin & Hout & Hws & Hcs & _).
  exists σ'. split; [exact Hloop|]. done.
Qed.

Lemma wait_many_registers_witness :
  ∃ σ',
    wait_many (Some delete_waiter) [Some 1%nat; None; Some 0%nat; Some 1%nat] example_world
    = Ok (count_signaled (events example_world)
            (non_null [Some 1%nat; None; Some 0%nat; Some 1%nat]),
          Z.of_nat (length (non_null [Some 1%nat; None; Some 0%nat; Some 1%nat]))
          - count_signaled (events example_world)
              (non_null [Some 1%nat; None; Some 0%nat; Some 1%nat])) σ' ∧
    waiters σ' = waiters example_world ∧ calls σ' = calls example_world.
Proof.
  destruct (wait_many_registers delete_waiter [Some 1%nat; None; Some 0%nat; Some 1%nat]
              example_world) as (σ' & Hrun & _ & _ & Hws & Hcs).
  - discriminate.
  - intros e He. simpl in He.
    repeat (apply elem_of_cons in He as [->|He]; [by eexists|]).
    by apply elem_of_nil in He.
  - exists σ'. split; [exact Hrun|]. split; [exact Hws | exact Hcs].
Defined.

(** X7: what [dismiss_wait_many] leaves behind when no producer runs
    meanwhile.  On a range of live events (possibly with repeats) it returns
    the number of entries that are not signaled; afterwards no event of the
    range is waited any more, the signaled ones are still signaled, and
    nothing else has changed. *)
Theorem dismiss_wait_many_clears (w : waiter_ptr) (range : list (option nat)) (σ : world) :
  (∀ e, e ∈ non_null range → is_Some (events σ !! e)) →
  ∃ σ',
    dismiss_wait_many w range σ
    = Ok (Z.of_nat (length (non_null range))
          - count_signaled (events σ) (non_null range)) σ' ∧
    (∀ e, e ∈ non_null range →
          events σ' !! e = if decide (events σ !! e = Some signaled)
                           then Some signaled else Some empty) ∧
    (∀ x, x ∉ non_null range → events σ' !! x = events σ !! x) ∧
    waiters σ' = waiters σ ∧ calls σ' = calls σ.
Proof.
  intros Hlive.
  destruct (dismiss_wait_many_loop_post w range σ 0 Hlive)
    as (σ' & Hloop & Hin & Hout & Hws & Hcs & _).
  exists σ'. split; [exact Hloop|]. done.
Qed.

Lemma dismiss_wait_many_clears_witness :
  ∃ σ',
    dismiss_wait_many None [Some 0%nat; Some 1%nat; Some 0%nat] example_world
    = Ok (Z.of_nat (length (non_null [Some 0%nat; Some 1%nat; Some 0%nat]))
          - count_signaled (events example_world)
              (non_null [Some 0%nat; Some 1%nat; Some 0%nat])) σ' ∧
    waiters σ' = waiters example_world ∧ calls σ' = calls example_world.
Proof.
  destruct (dismiss_wait_many_clears None [Some 0%nat; Some 1%nat; Some 0%nat]
              example_world) as (σ' & Hrun & _ & _ & Hws & Hcs).
  - intros e He. simpl in He.
    repeat (apply elem_of_cons in He as [->|He]; [by eexists|]).
    by apply elem_of_nil in He.
  - exists σ'. split; [exact Hrun|]. split; [exact Hws | exact Hcs].
Defined.

(** X8: registration and dismissal compose to nothing.  On a range of live
    events that are empty or signaled (the precondition of [try_wait]), with
    a waiter other than [noop_waiter] and no producer in between,
    [dismiss_wait_many] dismisses exactly what [wait_many] has registered and
    the program state is back where it was. *)
Theorem wait_many_dismiss_round_trip (w : waiter_ref) (range : list (option nat))
    (σ : world) :
  w ≠ noop_waiter →
  (∀ e, e ∈ non_null range →
        events σ !! e = Some empty ∨ events σ !! e = Some signaled) →
  ∃ nsignaled nwaited,
    (r ← wait_many (Some w) range;
     d ← dismiss_wait_many (Some w) range;
     mret (r, d)) σ = Ok ((nsignaled, nwaited), nwaited) σ ∧
    nsignaled + nwaited = Z.of_nat (length (non_null range)).
Proof.
  intros Hw Hstate.
  assert (Hlive : ∀ e, e ∈ non_null range → is_Some (events σ !! e)).
  { intros e He. destruct (Hstate e He) as [->| ->]; by eexists. }
  destruct (wait_many_loop_post w range σ 0 0 Hw Hlive)
    as (σ1 & Hloop1 & Hin1 & Hout1 & Hw1 & Hc1 & Hl1 & Hp1).
  assert (Hlive1 : ∀ e, e ∈ non_null range → is_Some (events σ1 !! e)).
  { intros e He. rewrite (Hin1 e He). case_decide; by eexists. }
  destruct (dismiss_wait_many_loop_post (Some w) range σ1 0 Hlive1)
    as (σ2 & Hloop2 & Hin2 & Hout2 & Hw2 & Hc2 & Hl2 & Hp2).
  assert (Hcount : count_signaled (events σ1) (non_null range)
                   = count_signaled (events σ) (non_null range)).
  { apply count_signaled_ext. intros e He. rewrite (Hin1 e He).
    case_decide as Hd; [by rewrite Hd|]. split; [|done].
    unfold signaled. congruence. }
  rewrite Hcount in Hloop2.
  assert (Hback : σ2 = σ).
  { apply world_eq; try congruence. apply map_eq. intros x.
    destruct (decide (x ∈ non_null range)) as [Hx|Hx].
    - rewrite (Hin2 x Hx), (Hin1 x Hx).
      destruct (Hstate x Hx) as [Hs|Hs]; rewrite Hs;
        repeat case_decide; unfold signaled, empty in *; congruence.
    - rewrite (Hout2 x Hx). by apply Hout1. }
  subst σ2.
  exists (0 + count_signaled (events σ) (non_null range)),
         (0 + (Z.of_nat (length (non_null range))
               - count_signaled (events σ) (non_null range))).
  split; [|lia]. unfold mbind, M_bind, wait_many, dismiss_wait_many.
  rewrite Hloop1, Hloop2. unfold mret, M_ret. do 2 f_equal.
Qed.

Lemma wait_many_dismiss_round_trip_witness :
  ∃ nsignaled nwaited,
    (r ← wait_many (Some delete_waiter) [Some 0%nat; None; Some 0%nat];
     d ← dismiss_wait_many (Some delete_waiter) [Some 0%nat; None; Some 0%nat];
     mret (r, d)) empty_event_world = Ok ((nsignaled, nwaited), nwaited) empty_event_world ∧
    nsignaled + nwaited = Z.of_nat (length (non_null [Some 0%nat; None; Some 0%nat])).
Proof.
  apply (wait_many_dismiss_round_trip delete_waiter [Some 0%nat; None; Some 0%nat]
           empty_event_world).
  - discriminate.
  - intros e He. simpl in He.
    repeat (apply elem_of_cons in He as [->|He]; [by left|]).
    by apply elem_of_nil in He.
Defined.

(** *** Blocking waits: [wait], [wait_all], and what [wait_any] leaves behind *)

Lemma count_signaled_all m es :
  (∀ e, e ∈ es → m !! e = Some signaled) →
  count_signaled m es = Z.of_nat (length es).
Proof.
  induction es as [|e es IH]; intros Hall; [done|].
  simpl count_signaled. simpl length.
  rewrite IH by (intros x Hx; apply Hall, elem_of_cons; by right).
  rewrite decide_True by (apply Hall, elem_of_cons; by left). lia.
Qed.

Lemma count_signaled_full m es :
  count_signaled m es = Z.of_nat (length es) →
  ∀ e, e ∈ es → m !! e = Some signaled.
Proof.
  induction es as [|x es IH]; intros Hfull e He.
  - by apply elem_of_nil in He.
  - simpl in Hfull. pose proof (count_signaled_bounds m es) as Hb.
    destruct (decide (m !! x = Some signaled)) as [Hx|Hx]; [|lia].
    apply elem_of_cons in He as [->|He]; [done|]. apply IH; [lia|done].
Qed.

Lemma count_signaled_exists m es :
  1 ≤ count_signaled m es → ∃ e, e ∈ es ∧ m !! e = Some signaled.
Proof.
  induction es as [|x es IH]; simpl; intros Hpos; [lia|].
  destruct (decide (m !! x = Some signaled)) as [Hx|Hx].
  - exists x. split; [apply elem_of_cons; by left|done].
  - destruct IH as (e & He & Hs); [lia|].
    exists e. split; [apply elem_of_cons; by right|done].
Qed.

Lemma signal_registered_events (latch : nat) (es : list nat) (k : Z) (e : nat)
    (σ σ' : world) :
  counted latch es k σ → e ∈ es → signal e σ = Ok tt σ' →
  events σ' = <[e := signaled]> (events σ).
Proof.
  intros [Hreg Hcount] He. destruct (Hreg e He) as [Hs|Hs];
    rewrite (signal_eq e _ σ Hs); unfold waiter_signal; simpl.
  - rewrite Hcount. by intros [= <-].
  - by intros [= <-].
Qed.

Lemma run_producers_post (latch : nat) (es : list nat) (k : Z) (burst : list nat) :
  ∀ σ : world,
  NoDup es → (∀ e, e ∈ burst → e ∈ es) → counted latch es k σ →
  ∃ σ', run_producers burst σ = Ok tt σ' ∧ counted latch es k σ' ∧
        (∀ e, e ∈ burst → events σ' !! e = Some signaled) ∧
        (∀ x, events σ !! x = Some signaled → events σ' !! x = Some signaled) ∧
        latch_log σ' = latch_log σ ∧ producers σ' = producers σ.
Proof.
  induction burst as [|e burst IH]; intros σ Hnd Hin Hc.
  - exists σ. simpl. unfold mret, M_ret. split; [done|]. split; [done|].
    split; [|done]. intros e He. by apply elem_of_nil in He.
  - simpl. unfold mbind, M_bind.
    assert (He : e ∈ es) by (apply Hin, elem_of_cons; by left).
    destruct (signal_counted latch es k e σ Hnd He Hc)
      as (σ1 & Hsig & Hc1 & _ & _ & Hl1 & Hp1).
    pose proof (signal_registered_events latch es k e σ σ1 Hc He Hsig) as He1.
    rewrite Hsig.
    destruct (IH σ1 Hnd) as (σ' & Hrun & Hc' & Hb' & Hmono' & Hl' & Hp');
      [intros x Hx; apply Hin, elem_of_cons; by right|done|].
    exists σ'. rewrite Hrun. split; [done|]. split; [done|].
    split; [|split; [|split; congruence]].
    + intros x Hx. apply elem_of_cons in Hx as [->|Hx]; [|by apply Hb'].
      apply Hmono'. rewrite He1. by rewrite lookup_insert_eq.
    + intros x Hx. apply Hmono'. rewrite He1.
      destruct (decide (e = x)) as [->|Hex]; [by rewrite lookup_insert_eq|].
      by rewrite lookup_insert_ne.
Qed.

Lemma latch_block_all (latch : nat) (es : list nat) (k : Z) (bursts : list (list nat)) :
  ∀ σ : world,
  NoDup es → counted latch es k σ →
  (∀ b e, b ∈ bursts → e ∈ b → e ∈ es) →
  (∀ e, e ∈ es → events σ !! e = Some signaled ∨ ∃ b, b ∈ bursts ∧ e ∈ b) →
  ∃ σ', latch_block latch (Z.of_nat (length es) - k) bursts σ = Ok tt σ' ∧
        (∀ e, e ∈ es → events σ' !! e = Some signaled) ∧
        waiters σ' !! latch = Some (countdown_latch 0) ∧
        latch_log σ' = latch_log σ.
Proof.
  assert (Hready : ∀ bursts σ, counted latch es k σ →
            count_signaled (events σ) es = Z.of_nat (length es) →
            ∃ σ', latch_block latch (Z.of_nat (length es) - k) bursts σ = Ok tt σ' ∧
                  (∀ e, e ∈ es → events σ' !! e = Some signaled) ∧
                  waiters σ' !! latch = Some (countdown_latch 0) ∧
                  latch_log σ' = latch_log σ).
  { intros bs σ [Hreg Hcount] Hfull. eexists. split.
    - apply (latch_block_ready latch _ _ bs σ Hcount). lia.
    - simpl. split; [by apply count_signaled_full|]. split; [|done].
      rewrite lookup_insert_eq. do 2 f_equal. lia. }
  induction bursts as [|b bursts IH]; intros σ Hnd Hc Hin Hall.
  - apply Hready; [done|]. apply count_signaled_all. intros e He.
    destruct (Hall e He) as [Hs|(b & Hb & _)]; [done|]. by apply elem_of_nil in Hb.
  - pose proof (count_signaled_bounds (events σ) es) as Hb.
    destruct (decide (count_signaled (events σ) es = Z.of_nat (length es)))
      as [Hfull|Hnot]; [by apply Hready|].
    pose proof Hc as [Hreg Hcount]. simpl. rewrite Hcount.
    rewrite decide_False by lia.
    destruct (run_producers_post latch es k b σ Hnd) as (σ1 & Hrun & Hc1 & Hb1 & Hmono1 & Hl1 & Hp1);
      [intros x Hx; apply (Hin b x); [apply elem_of_cons; by left|done] |done|].
    rewrite Hrun.
    destruct (IH σ1 Hnd Hc1) as (σ' & Hblock & Hall' & Hw' & Hl').
    { intros b' x Hb' Hx. apply (Hin b' x); [apply elem_of_cons; by right|done]. }
    { intros e He. destruct (Hall e He) as [Hs|(b' & Hb' & Heb)].
      - left. by apply Hmono1.
      - apply elem_of_cons in Hb' as [->|Hb'].
        + left. by apply Hb1.
        + right. by exists b'. }
    exists σ'. rewrite Hblock. split; [done|]. split; [done|]. split; [done|]. congruence.
Qed.

(** X9: [wait_all_adl] returns only when every event of the range has been
    signaled.  The events of the range are live and distinct, each is
    signaled already or will be by a producer, and the producers that run
    while the consumer is blocked are those of the range.  The latch is
    waited on once, for as many signals as events were not yet signaled, and
    not at all when that number is 0; at the end it has no signal left. *)
Theorem wait_all_returns_all_signaled (latch : nat) (range : list (option nat))
    (σ : world) :
  (∃ c, waiters σ !! latch = Some (countdown_latch c)) →
  NoDup (non_null range) →
  (∀ e, e ∈ non_null range → is_Some (events σ !! e)) →
  (∀ b e, b ∈ producers σ → e ∈ b → e ∈ non_null range) →
  (∀ e, e ∈ non_null range →
        events σ !! e = Some signaled ∨ ∃ b, b ∈ producers σ ∧ e ∈ b) →
  let nwaited := Z.of_nat (length (non_null range))
                 - count_signaled (events σ) (non_null range) in
  ∃ σ', wait_all_adl latch range σ = Ok tt σ' ∧
        (∀ e, e ∈ non_null range → events σ' !! e = Some signaled) ∧
        latch_log σ' = latch_log σ ++ [(latch, Reset)]
                       ++ (if decide (nwaited = 0) then [] else [(latch, Wait nwaited)]) ∧
        waiters σ' !! latch = Some (countdown_latch 0).
Proof.
  intros [c Hc] Hnd Hlive Hprod Hall nwaited.
  set (es := non_null range) in *.
  set (σ0 := set_waiters <[latch := countdown_latch 0]> (log_latch (latch, Reset) σ)).
  assert (Hreset : latch_reset latch σ = Ok tt σ0).
  { unfold latch_reset. by rewrite Hc. }
  destruct (wait_many_loop_registers latch range σ0 0 0 Hnd Hlive)
    as (σ1 & Hloop & Hw1 & Hl1 & Hp1 & Hin1 & _).
  fold es in Hloop, Hin1. simpl in Hloop, Hin1.
  assert (Hp1' : producers σ1 = producers σ) by (by rewrite Hp1).
  assert (Hl1' : latch_log σ1 = latch_log σ ++ [(latch, Reset)]) by (by rewrite Hl1).
  set (n0 := count_signaled (events σ) es) in *.
  assert (Hreg1 : registered latch es (events σ1)).
  { intros e He. rewrite (Hin1 e He). case_decide; auto. }
  assert (Hmono1 : ∀ e, e ∈ es → events σ !! e = Some signaled →
                        events σ1 !! e = Some signaled).
  { intros e He Hs. rewrite (Hin1 e He). by rewrite decide_True. }
  assert (Hn1 : count_signaled (events σ1) es = n0).
  { apply count_signaled_ext. intros e He. rewrite (Hin1 e He).
    case_decide as Hd; [by rewrite Hd|]. split; [|done].
    unfold signaled. congruence. }
  assert (Hlatch1 : waiters σ1 !! latch = Some (countdown_latch 0)).
  { rewrite Hw1. simpl. by rewrite lookup_insert_eq. }
  assert (Hwm : wait_many (Some (waiter_at latch)) range σ0
                = Ok (0 + n0, 0 + nwaited) σ1) by exact Hloop.
  unfold wait_all_adl, mbind, M_bind. rewrite Hreset, Hwm. simpl.
  destruct (decide (nwaited = 0)) as [Hz|Hnz].
  - rewrite decide_False by lia. exists σ1. unfold mret, M_ret.
    split; [done|]. split; [|split; done].
    apply count_signaled_full. rewrite Hn1. subst nwaited. fold es in Hz. lia.
  - rewrite decide_True by lia.
    assert (Hc1 : counted latch es n0 (log_latch (latch, Wait (0 + nwaited)) σ1)).
    { split; [done|]. simpl. rewrite Hlatch1, Hn1. do 2 f_equal. lia. }
    destruct (latch_block_all latch es n0 (producers σ1) _ Hnd Hc1)
      as (σ' & Hblock & Hall' & Hw' & Hl').
    { intros b e Hb He. apply (Hprod b e); [by rewrite <- Hp1'|done]. }
    { intros e He. simpl. destruct (Hall e He) as [Hs|(b & Hb & Heb)].
      - left. by apply Hmono1.
      - right. exists b. by rewrite Hp1'. }
    exists σ'. unfold latch_wait.
    replace (0 + nwaited) with (Z.of_nat (length es) - n0) in * by (subst nwaited; fold es; lia).
    split; [exact Hblock|]. split; [done|]. split; [|done].
    rewrite Hl'. simpl. rewrite Hl1'. rewrite <- app_assoc. done.
Qed.

Lemma wait_all_returns_all_signaled_witness :
  ∃ σ', wait_all_adl 0 [Some 1%nat; None; Some 2%nat] three_events_world = Ok tt σ' ∧
        (∀ e, e ∈ non_null [Some 1%nat; None; Some 2%nat] →
              events σ' !! e = Some signaled) ∧
        waiters σ' !! 0%nat = Some (countdown_latch 0).
Proof.
  destruct (wait_all_returns_all_signaled 0 [Some 1%nat; None; Some 2%nat]
              three_events_world) as (σ' & Hrun & Hall & _ & Hw).
  - exists 5. reflexivity.
  - simpl. apply (bool_decide_unpack (NoDup [1%nat; 2%nat])). by vm_compute.
  - intros e He. simpl in He.
    repeat (apply elem_of_cons in He as [->|He]; [by eexists|]).
    by apply elem_of_nil in He.
  - intros b e Hb He. simpl in *.
    apply elem_of_cons in Hb as [->|Hb]; [done|]. by apply elem_of_nil in Hb.
  - intros e He. right. exists [1%nat; 2%nat]. split; [|done].
    apply elem_of_cons. by left.
  - exists σ'. split; [exact Hrun|]. split; [exact Hall | exact Hw].
Defined.

(** X10: [wait_adl] on one event returns with the event signaled and no
    signal left in the latch, after one [reset] and one [wait] on the latch.
    On an event that is signaled already it needs no producer: the callback
    runs inside [wait].  On an empty event it blocks until a producer of the
    event has signaled it. *)
Theorem wait_returns_signaled (latch e : nat) (σ : world) :
  (∃ c, waiters σ !! latch = Some (countdown_latch c)) →
  events σ !! e = Some signaled
  ∨ (events σ !! e = Some empty ∧
     (∀ b x, b ∈ producers σ → x ∈ b → x = e) ∧
     (∃ b, b ∈ producers σ ∧ b ≠ [])) →
  ∃ σ', wait_adl latch e σ = Ok tt σ' ∧
        events σ' !! e = Some signaled ∧
        waiters σ' !! latch = Some (countdown_latch 0) ∧
        latch_log σ' = latch_log σ ++ [(latch, Reset); (latch, Wait 1)].
Proof.
  intros [c Hc] Hcases.
  set (σ0 := set_waiters <[latch := countdown_latch 0]> (log_latch (latch, Reset) σ)).
  assert (Hreset : latch_reset latch σ = Ok tt σ0).
  { unfold latch_reset. by rewrite Hc. }
  unfold wait_adl, wait, mbind, M_bind. rewrite Hreset.
  destruct Hcases as [Hs|(Hs & Hprod & Hprogress)].
  - assert (Hs0 : events σ0 !! e = Some signaled) by exact Hs.
    rewrite (try_wait_eq e _ _ σ0 Hs0). rewrite decide_True by done. simpl.
    unfold waiter_signal. simpl. rewrite lookup_insert_eq.
    eexists. split.
    + apply (latch_wait_ready latch 1 (0 + 1)); [simpl; by rewrite lookup_insert_eq|lia].
    + simpl. split; [done|]. split; [by rewrite lookup_insert_eq|].
      by rewrite <- app_assoc.
  - assert (Hs0 : events σ0 !! e = Some empty) by exact Hs.
    rewrite (try_wait_eq e _ _ σ0 Hs0).
    rewrite decide_False by (unfold signaled, empty; congruence). simpl.
    unfold mret, M_ret, latch_wait.
    set (σ1 := log_latch (latch, Wait 1) (set_events <[e := Some (waiter_at latch)]> σ0)).
    assert (Hc1 : counted latch [e] 0 σ1).
    { split.
      - intros x Hx. apply elem_of_cons in Hx as [->|Hx]; [|by apply elem_of_nil in Hx].
        left. simpl. by rewrite lookup_insert_eq.
      - simpl. rewrite !lookup_insert_eq.
        rewrite decide_False by (unfold signaled; congruence). done. }
    destruct (latch_block_first latch [e] (producers σ) σ1) as (σ' & Hblock & [Hreg' Hcount'] & Hpos' & Hl').
    + apply NoDup_singleton.
    + done.
    + intros b x Hb Hx. rewrite (Hprod b x Hb Hx). apply elem_of_cons. by left.
    + right. done.
    + pose proof (count_signaled_bounds (events σ') [e]) as Hb. simpl length in Hb.
      exists σ'. split; [exact Hblock|]. split; [|split].
      * apply (count_signaled_full _ [e]); [simpl length; lia|].
        apply elem_of_cons. by left.
      * rewrite Hcount'. do 2 f_equal. lia.
      * rewrite Hl'. simpl. by rewrite <- app_assoc.
Qed.

Lemma wait_returns_signaled_witness :
  ∃ σ', wait_adl 0 1%nat example_world = Ok tt σ' ∧
        events σ' !! 1%nat = Some signaled ∧
        waiters σ' !! 0%nat = Some (countdown_latch 0) ∧
        latch_log σ' = latch_log example_world ++ [(0%nat, Reset); (0%nat, Wait 1)].
Proof.
  apply (wait_returns_signaled 0 1%nat example_world).
  - exists 0. reflexivity.
  - left. reflexivity.
Defined.

(** X11: what [wait_any_adl] leaves behind.  Under the conditions of its
    protocol (live, distinct events; producers of the range only; an event
    signaled already or a producer to come), it returns with at least one
    event of the range signaled and with none of them waited any more: each
    is signaled, or empty again after its dismissal; the latch has no signal
    left. *)
Theorem wait_any_leaves_no_waiter (latch : nat) (range : list (option nat)) (σ : world) :
  (∃ c, waiters σ !! latch = Some (countdown_latch c)) →
  NoDup (non_null range) →
  (∀ e, e ∈ non_null range → is_Some (events σ !! e)) →
  (∀ b e, b ∈ producers σ → e ∈ b → e ∈ non_null range) →
  (∃ e, e ∈ non_null range ∧ events σ !! e = Some signaled)
  ∨ (∃ b, b ∈ producers σ ∧ b ≠ []) →
  ∃ σ', wait_any_adl latch range σ = Ok tt σ' ∧
        (∃ e, e ∈ non_null range ∧ events σ' !! e = Some signaled) ∧
        (∀ e, e ∈ non_null range →
              events σ' !! e = Some signaled ∨ events σ' !! e = Some empty) ∧
        waiters σ' !! latch = Some (countdown_latch 0).
Proof.
  intros [c Hc] Hnd Hlive Hprod Hprogress.
  set (es := non_null range) in *.
  set (σ0 := set_waiters <[latch := countdown_latch 0]> (log_latch (latch, Reset) σ)).
  assert (Hreset : latch_reset latch σ = Ok tt σ0).
  { unfold latch_reset. by rewrite Hc. }
  destruct (wait_many_loop_registers latch range σ0 0 0 Hnd Hlive)
    as (σ1 & Hloop & Hw1 & Hl1 & Hp1 & Hin1 & _).
  fold es in Hloop, Hin1. simpl in Hloop, Hin1.
  assert (Hp1' : producers σ1 = producers σ) by (by rewrite Hp1).
  set (n0 := count_signaled (events σ) es) in *.
  set (len := Z.of_nat (length es)) in *.
  assert (Hreg1 : registered latch es (events σ1)).
  { intros e He. rewrite (Hin1 e He). case_decide; auto. }
  assert (Hn1 : count_signaled (events σ1) es = n0).
  { apply count_signaled_ext. intros e He. rewrite (Hin1 e He).
    case_decide as Hd; [by rewrite Hd|]. split; [|done].
    unfold signaled. congruence. }
  assert (Hlatch1 : waiters σ1 !! latch = Some (countdown_latch 0)).
  { rewrite Hw1. simpl. by rewrite lookup_insert_eq. }
  assert (Hlen : Z.of_nat (length es) ≤ Z.of_nat (length range)).
  { pose proof (length_non_null range). unfold es. lia. }
  pose proof (count_signaled_bounds (events σ) es) as Hn0. fold n0 len in Hn0.
  assert (Hwm : wait_many (Some (waiter_at latch)) range σ0
                = Ok (0 + n0, 0 + (len - n0)) σ1) by exact Hloop.
  (* the state in which the dismissal starts *)
  assert (Hmid : ∃ σ2 n2,
    (if decide (0 + n0 = 0) then latch_wait latch 1 σ1 else Ok tt σ1) = Ok tt σ2 ∧
    registered latch es (events σ2) ∧
    n2 = count_signaled (events σ2) es ∧ 1 ≤ n2 ∧ n0 ≤ n2 ∧
    waiters σ2 !! latch
    = Some (countdown_latch (n2 - n0 - (if decide (0 + n0 = 0) then 1 else 0)))).
  { destruct (decide (0 + n0 = 0)) as [Hz|Hnz].
    - assert (Hc1 : counted latch es 0 (log_latch (latch, Wait 1) σ1)).
      { split; [done|]. simpl. rewrite Hlatch1, Hn1. do 2 f_equal. lia. }
      destruct (latch_block_first latch es (producers σ1) _ Hnd Hc1)
        as (σ2 & Hblock & [Hreg2 Hcount2] & Hpos2 & _).
      { intros b e Hb He. apply (Hprod b e); [by rewrite <- Hp1'|done]. }
      { right. destruct Hprogress as [(e & He & Hs)|(b & Hb & Hne)].
        - pose proof (count_signaled_pos _ _ _ He Hs) as Hone. fold n0 in Hone. lia.
        - exists b. split; [by rewrite Hp1'|done]. }
      exists σ2, (count_signaled (events σ2) es).
      split; [exact Hblock|]. split; [done|]. split; [done|]. split; [done|].
      split; [lia|]. rewrite Hcount2. do 2 f_equal. lia.
    - exists σ1, n0. split; [done|]. split; [done|].
      split; [done|]. split; [lia|]. split; [lia|]. rewrite Hlatch1. do 2 f_equal. lia. }
  destruct Hmid as (σ2 & n2 & Hstep & Hreg2 & Hn2 & Hpos2 & Hle2 & Hlatch2).
  assert (Hlive2 : ∀ e, e ∈ non_null range → is_Some (events σ2 !! e)).
  { intros e He. destruct (Hreg2 e He) as [->| ->]; by eexists. }
  destruct (dismiss_wait_many_loop_post (Some (waiter_at latch)) range σ2 0 Hlive2)
    as (σ3 & Hdis & Hin3 & _ & Hw3 & _).
  fold es len in Hdis, Hin3. rewrite <- Hn2 in Hdis.
  assert (Hdm : dismiss_wait_many (Some (waiter_at latch)) range σ2
                = Ok (0 + (len - n2)) σ3) by exact Hdis.
  pose proof (count_signaled_bounds (events σ2) es) as Hb2. rewrite <- Hn2 in Hb2.
  fold len in Hb2.
  set (pending := 0 + (len - n0) - (0 + (len - n2))
                  - (if decide (0 + n0 = 0) then 1 else 0)).
  assert (Hpend : pending = n2 - n0 - (if decide (0 + n0 = 0) then 1 else 0)).
  { subst pending. lia. }
  assert (Hpend0 : 0 ≤ pending).
  { rewrite Hpend. destruct (decide (0 + n0 = 0)); lia. }
  assert (Hlast : ∃ σ',
    (if decide (pending ≠ 0) then latch_wait latch pending σ3 else Ok tt σ3) = Ok tt σ' ∧
    events σ' = events σ3 ∧ waiters σ' !! latch = Some (countdown_latch 0)).
  { assert (Hlatch3 : waiters σ3 !! latch = Some (countdown_latch pending)).
    { rewrite Hw3, Hlatch2, Hpend. done. }
    destruct (decide (pending ≠ 0)) as [Hp|Hp].
    - eexists. split; [apply (latch_wait_ready latch _ _ σ3 Hlatch3); lia|].
      simpl. split; [done|]. rewrite lookup_insert_eq. do 2 f_equal. lia.
    - exists σ3. split; [done|]. split; [done|].
      rewrite Hlatch3. do 2 f_equal. lia. }
  destruct Hlast as (σ' & Hfin & He' & Hw').
  exists σ'. split; [|split; [|split; [|done]]].
  - assert (Hstep' : (if decide (0 + n0 = 0) then latch_wait latch 1 else mret tt) σ1
                     = Ok tt σ2).
    { destruct (decide (0 + n0 = 0)); exact Hstep. }
    assert (Hfin' : (if decide (pending ≠ 0) then latch_wait latch pending else mret tt) σ3
                    = Ok tt σ').
    { destruct (decide (pending ≠ 0)); exact Hfin. }
    unfold wait_any_adl, mbind, M_bind. rewrite Hreset, Hwm. simpl.
    rewrite assert_true by (apply bool_decide_eq_true_2; lia).
    rewrite Hstep', Hdm.
    rewrite assert_true by (apply bool_decide_eq_true_2; lia).
    rewrite assert_true by (apply bool_decide_eq_true_2; subst pending; case_decide; lia).
    rewrite assert_true
      by (apply bool_decide_eq_true_2; subst pending;
          destruct (decide (0 + n0 = 0)); [right|left]; lia).
    subst pending. destruct (decide (0 + n0 = 0)) as [Hz|Hnz].
    + rewrite assert_true by (apply bool_decide_eq_true_2; lia).
      unfold mret at 1, M_ret at 1. exact Hfin'.
    + unfold mret at 1, M_ret at 1.
      replace (0 + (len - n0) - (0 + (len - n2)))
        with (0 + (len - n0) - (0 + (len - n2)) - 0) by lia.
      exact Hfin'.
  - destruct (count_signaled_exists (events σ2) es) as (e & He & Hs); [lia|].
    exists e. split; [done|]. rewrite He', (Hin3 e He). by rewrite decide_True.
  - intros e He. rewrite He', (Hin3 e He).
    destruct (decide (events σ2 !! e = Some signaled)); auto.
Qed.

Lemma wait_any_leaves_no_waiter_witness :
  ∃ σ', wait_any_adl 0 [Some 0%nat; None; Some 1%nat; Some 2%nat] three_events_world
        = Ok tt σ' ∧
        (∃ e, e ∈ non_null [Some 0%nat; None; Some 1%nat; Some 2%nat] ∧
              events σ' !! e = Some signaled) ∧
        (∀ e, e ∈ non_null [Some 0%nat; None; Some 1%nat; Some 2%nat] →
              events σ' !! e = Some signaled ∨ events σ' !! e = Some empty) ∧
        waiters σ' !! 0%nat = Some (countdown_latch 0).
Proof.
  apply (wait_any_leaves_no_waiter 0 [Some 0%nat; None; Some 1%nat; Some 2%nat]
           three_events_world).
  - exists 5. reflexivity.
  - simpl. apply (bool_decide_unpack (NoDup [0%nat; 1%nat; 2%nat])). by vm_compute.
  - intros e He. simpl in He.
    repeat (apply elem_of_cons in He as [->|He]; [by eexists|]).
    by apply elem_of_nil in He.
  - intros b e Hb He. simpl in *.
    apply elem_of_cons in Hb as [->|Hb]; [|by apply elem_of_nil in Hb].
    apply elem_of_cons. by right.
  - right. exists [1%nat; 2%nat]. split; [|done]. apply elem_of_cons. by left.
Defined.

(** *** A range without events *)

Lemma wait_many_loop_no_event (w : waiter_ptr) (range : list (option nat)) :
  ∀ (σ : world) (signaled0 waited0 : Z),
  non_null range = [] →
  wait_many_loop w range signaled0 waited0 σ = Ok (signaled0, waited0) σ.
Proof.
  induction range as [|[e|] range IH]; intros σ s0 w0 Hnone; simpl in *;
    [done|discriminate|by apply IH].
Qed.

Lemma dismiss_wait_many_loop_no_event (w : waiter_ptr) (range : list (option nat)) :
  ∀ (σ : world) (count0 : Z),
  non_null range = [] →
  dismiss_wait_many_loop w range count0 σ = Ok count0 σ.
Proof.
  induction range as [|[e|] range IH]; intros σ c0 Hnone; simpl in *;
    [done|discriminate|by apply IH].
Qed.

Lemma run_producers_unwaited (burst : list nat) :
  ∀ σ : world,
  (∀ e, e ∈ burst → events σ !! e = Some empty ∨ events σ !! e = Some signaled) →
  ∃ σ', run_producers burst σ = Ok tt σ' ∧ waiters σ' = waiters σ ∧
        (∀ x, events σ !! x = Some empty ∨ events σ !! x = Some signaled →
              events σ' !! x = Some empty ∨ events σ' !! x = Some signaled).
Proof.
  induction burst as [|e burst IH]; intros σ Hun.
  - exists σ. by simpl.
  - simpl. unfold mbind, M_bind.
    assert (Hsig : ∃ σ1, signal e σ = Ok tt σ1 ∧ waiters σ1 = waiters σ ∧
                         events σ1 = <[e := signaled]> (events σ)).
    { destruct (Hun e) as [Hs|Hs]; [apply elem_of_cons; by left| |];
        rewrite (signal_eq e _ σ Hs); eexists; split; by try reflexivity. }
    destruct Hsig as (σ1 & Hsig & Hw1 & He1). rewrite Hsig.
    assert (Hkeep : ∀ x, events σ !! x = Some empty ∨ events σ !! x = Some signaled →
                         events σ1 !! x = Some empty ∨ events σ1 !! x = Some signaled).
    { intros x Hx. rewrite He1. destruct (decide (e = x)) as [->|Hex].
      - right. by rewrite lookup_insert_eq.
      - by rewrite lookup_insert_ne. }
    destruct (IH σ1) as (σ' & Hrun & Hw' & Hun').
    { intros x Hx. apply Hkeep, Hun, elem_of_cons. by right. }
    exists σ'. split; [done|]. split; [congruence|]. intros x Hx. by apply Hun', Hkeep.
Qed.

Lemma latch_block_starved (latch : nat) (bursts : list (list nat)) :
  ∀ σ : world,
  waiters σ !! latch = Some (countdown_latch 0) →
  (∀ b e, b ∈ bursts → e ∈ b →
          events σ !! e = Some empty ∨ events σ !! e = Some signaled) →
  latch_block latch 1 bursts σ = Fault blocked_forever.
Proof.
  induction bursts as [|b bursts IH]; intros σ Hw Hun; simpl; rewrite Hw;
    rewrite decide_False by lia; [done|].
  destruct (run_producers_unwaited b σ) as (σ1 & Hrun & Hw1 & Hkeep).
  { intros e He. apply (Hun b e); [apply elem_of_cons; by left|done]. }
  rewrite Hrun. apply IH; [congruence|].
  intros b' e Hb' He. apply Hkeep, (Hun b' e); [apply elem_of_cons; by right|done].
Qed.

(** X12: a range without events (empty, or null entries only).
    [wait_all_adl] returns at once: it resets the latch and never waits on
    it.  [wait_any_adl] finds nothing signaled, blocks on the latch, and is
    never woken by producers that signal events nobody waits on. *)
Theorem range_without_events (latch : nat) (range : list (option nat)) (σ : world) :
  (∃ c, waiters σ !! latch = Some (countdown_latch c)) →
  non_null range = [] →
  wait_all_adl latch range σ
  = Ok tt (set_waiters <[latch := countdown_latch 0]> (log_latch (latch, Reset) σ)) ∧
  ((∀ b e, b ∈ producers σ → e ∈ b →
           events σ !! e = Some empty ∨ events σ !! e = Some signaled) →
   wait_any_adl latch range σ = Fault blocked_forever).
Proof.
  intros [c Hc] Hnone.
  set (σ0 := set_waiters <[latch := countdown_latch 0]> (log_latch (latch, Reset) σ)).
  assert (Hreset : latch_reset latch σ = Ok tt σ0).
  { unfold latch_reset. by rewrite Hc. }
  assert (Hwm : wait_many (Some (waiter_at latch)) range σ0 = Ok (0, 0) σ0).
  { by apply wait_many_loop_no_event. }
  split.
  - unfold wait_all_adl, mbind, M_bind. by rewrite Hreset, Hwm.
  - intros Hun. unfold wait_any_adl, mbind, M_bind. rewrite Hreset, Hwm. simpl.
    rewrite assert_true by (apply bool_decide_eq_true_2; lia).
    unfold latch_wait. rewrite (latch_block_starved latch (producers σ)); [done| |done].
    simpl. by rewrite lookup_insert_eq.
Qed.

Lemma range_without_events_witness :
  wait_all_adl 0 [None; None] three_events_world
  = Ok tt (set_waiters <[0%nat := countdown_latch 0]>
             (log_latch (0%nat, Reset) three_events_world)) ∧
  wait_any_adl 0 [None; None] three_events_world = Fault blocked_forever.
Proof.
  destruct (range_without_events 0 [None; None] three_events_world) as [Hall Hany].
  - exists 5. reflexivity.
  - reflexivity.
  - split; [exact Hall|]. apply Hany. intros b e Hb He. simpl in Hb.
    apply elem_of_cons in Hb as [->|Hb]; [|by apply elem_of_nil in Hb].
    left. repeat (apply elem_of_cons in He as [->|He]; [reflexivity|]).
    by apply elem_of_nil in He.
Defined.

(** X20: no double delivery.  Signaling twice an event on which a countdown
    latch is registered counts once: the first [signal()] calls the latch,
    the second finds the event signaled and only reaches [noop_waiter]; the
    event is still there and signaled. *)
Theorem signal_twice_counts_once (this latch : nat) (c : Z) (σ : world) :
  events σ !! this = Some (Some (waiter_at latch)) →
  waiters σ !! latch = Some (countdown_latch c) →
  ∃ σ', (signal this;; signal this) σ = Ok tt σ' ∧
        waiters σ' !! latch = Some (countdown_latch (c + 1)) ∧
        calls σ' = calls σ ++ [(waiter_at latch, this); (noop_waiter, this)] ∧
        events σ' !! this = Some signaled.
Proof.
  intros Hs Hw. unfold mbind, M_bind. rewrite (signal_eq this _ σ Hs).
  unfold waiter_signal at 1. simpl. rewrite Hw.
  rewrite (signal_eq this signaled) by (simpl; by rewrite lookup_insert_eq).
  eexists. split; [reflexivity|]. simpl.
  rewrite !lookup_insert_eq. by rewrite <- app_assoc.
Qed.

Lemma signal_twice_counts_once_witness :
  ∃ σ', (signal 0%nat;; signal 0%nat) example_world = Ok tt σ' ∧
        waiters σ' !! 0%nat = Some (countdown_latch (0 + 1)) ∧
        calls σ' = calls example_world ++ [(waiter_at 0, 0%nat); (noop_waiter, 0%nat)] ∧
        events σ' !! 0%nat = Some signaled.
Proof.
  apply (signal_twice_counts_once 0%nat 0%nat 0 example_world); reflexivity.
Defined.

(** *** The protocol of [wait_any] *)







(** The run of the witness: event 0 is found signaled, so the consumer does
    not block; the producer signals event 1 before the dismissal, which
    therefore dismisses event 2 only, and the last wait consumes that one
    signal.  With no producer in between, both events are dismissed and the
    latch is not waited on at all. *)
Example wait_any_presignaled :
  (∃ σ', wait_any_among_producers 0 [Some 0%nat; None; Some 1%nat; Some 2%nat]
           presignaled_world = Ok tt σ' ∧
         latch_log σ' = [(0%nat, Reset); (0%nat, Wait 1)] ∧
         calls σ' = [(waiter_at 0, 1%nat)] ∧
         events σ' !! 1%nat = Some signaled ∧ events σ' !! 2%nat = Some empty ∧
         waiters σ' !! 0%nat = Some (countdown_latch 0)) ∧
  (∃ σ', wait_any_adl 0 [Some 0%nat; None; Some 1%nat; Some 2%nat]
           presignaled_world = Ok tt σ' ∧
         latch_log σ' = [(0%nat, Reset)] ∧
         events σ' !! 1%nat = Some empty ∧ events σ' !! 2%nat = Some empty).
Proof.
  split; eexists; (split; [vm_compute; reflexivity|]); by vm_compute.
Qed.

End EventFacts.

(** ** Properties of continuations and of stack allocation *)
Module SwitchFacts.
Import Switch.

(** C9: [pilfer()] returns the stored pair and leaves the null pair behind,
    so the pilfered (or moved-from) continuation is terminated, has no data,
    and passes the assertion of the destructor. *)
Theorem pilfer_leaves_terminated (c : continuation) :
  (pilfer c).1 = pair c ∧
  pair (pilfer c).2 = null_pair ∧
  terminated (pilfer c).2 = true ∧
  has_data (pilfer c).2 = false ∧
  destroy (pilfer c).2 = Some tt ∧
  pair (continuation_move c).1 = pair c ∧
  destroy (continuation_move c).2 = Some tt.
Proof. by destruct c as [[[p] q]]. Qed.

(** A continuation that still has a stack fails the destructor's assertion
    until it has been pilfered. *)
Example destroy_live_continuation :
  destroy (Continuation (SwitchPair (Cont 4096) 0)) = None ∧
  destroy (pilfer (Continuation (SwitchPair (Cont 4096) 0))).2 = Some tt.
Proof. done. Qed.

Section CreateContextFacts.

Variable heap : Type.
Variable posix_memalign : Z -> Z -> heap -> memalign_result * heap.
Variable free : Z -> heap -> heap.
Variable F : Type.
Variable stack_bottom : Z -> Z -> Z.
Variable run_startup_trampoline_into :
  cont -> F -> stack_allocator heap * Z -> sys heap -> outcome switch_pair * sys heap.

Let alloc := default_stack_allocator heap posix_memalign free.
Let create := create_context heap F stack_bottom run_startup_trampoline_into.

(** C8: with its default arguments [create_context] asks the allocator for
    one stack of [1024*1024] bytes (1 MiB), which the default allocator
    requests from [posix_memalign] with alignment 16; when [posix_memalign]
    answers [ENOMEM] the caller of [create_context] gets [std::bad_alloc] and
    nothing has run on a new stack; otherwise the startup trampoline runs
    with that one request made. *)
Theorem create_context_allocation (f : F) (s : sys heap) :
  default_stack_size = 1048576 ∧ default_stack_size = 2 ^ 20 ∧ alignment = 16 ∧
  callcc heap posix_memalign free F stack_bottom run_startup_trampoline_into f s
  = create f default_stack_size alloc s ∧
  let s1 h := Sys heap h (stack_requests heap s ++ [(16, 1048576)]) in
  match posix_memalign 16 1048576 (mem heap s) with
  | (ENOMEM, h) => create f default_stack_size alloc s = (Throws bad_alloc, s1 h)
  | (EINVAL, h) => create f default_stack_size alloc s = (Aborts, s1 h)
  | (memalign_ok stackp, h) =>
      create f default_stack_size alloc s
      = (let '(r, s2) := run_startup_trampoline_into
                           (Cont (stack_bottom stackp 1048576)) f (alloc, stackp) (s1 h) in
         (outcome_map continuation_of_pair r, s2))
  end.
Proof.
  split; [done|]. split; [done|]. split; [done|]. split; [done|].
  subst create alloc. unfold create_context.
  cbn [allocate default_stack_allocator].
  unfold default_allocate, alignment, default_stack_size.
  change (1024 * 1024) with 1048576.
  destruct (posix_memalign 16 1048576 (mem heap s)) as [[stackp| |] h]; reflexivity.
Qed.

End CreateContextFacts.

(** A heap that is exhausted: every [posix_memalign] answers [ENOMEM]. *)
Example create_context_out_of_memory (f : unit) :
  create_context unit unit (λ p _, p) (λ _ _ _ s, (Returns null_pair, s))
    f default_stack_size (default_stack_allocator unit (λ _ _ h, (ENOMEM, h)) (λ _ h, h))
    (Sys unit tt [])
  = (Throws bad_alloc, Sys unit tt [(16, 1048576)]).
Proof. done. Qed.

(** *** Assignment, exit continuations and trampolines *)

(** X13: assignment hands the pair over and leaves the source terminated.
    [continuation::operator=] refuses a target that still has a stack (its
    assertion fails); [exit_continuation::operator=] has no such check and
    overwrites a live target, whose stack pointer is lost.  Moving a
    continuation into an exit continuation keeps the pair and leaves the
    continuation fit for its destructor. *)
Theorem assignment_hands_over (this rhs : continuation) (ethis erhs : exit_continuation) :
  (terminated this = true → assign this rhs = Some (Continuation (pair rhs))) ∧
  (terminated this = false → assign this rhs = None) ∧
  exit_assign ethis erhs = Some (ExitContinuation (exit_pair erhs)) ∧
  exit_pair (exit_of_continuation rhs).1 = pair rhs ∧
  destroy (exit_of_continuation rhs).2 = Some tt ∧
  exit_pair (exit_move erhs).1 = exit_pair erhs ∧
  exit_destroy (exit_move erhs).2 = Some tt.
Proof.
  unfold assign. destruct (terminated this); repeat split; try done.
Qed.

Lemma assignment_hands_over_witness :
  assign (Continuation (SwitchPair (Cont 4096) 0)) (Continuation (SwitchPair (Cont 8192) 7))
  = None ∧
  exit_assign (ExitContinuation (SwitchPair (Cont 4096) 0))
              (ExitContinuation (SwitchPair (Cont 8192) 7))
  = Some (ExitContinuation (SwitchPair (Cont 8192) 7)).
Proof.
  destruct (assignment_hands_over
              (Continuation (SwitchPair (Cont 4096) 0))
              (Continuation (SwitchPair (Cont 8192) 7))
              (ExitContinuation (SwitchPair (Cont 4096) 0))
              (ExitContinuation (SwitchPair (Cont 8192) 7)))
    as (_ & Hlive & Hexit & _).
  split; [apply Hlive; reflexivity | exact Hexit].
Defined.

Section TrampolineFacts.

Variable heap : Type.

(** X14: the splice trampoline always goes back to where it was spliced
    from.  When the functor returns, the pair it yields has the caller's
    stack pointer, and carries data exactly when the functor returned a
    reference to an object; when the functor throws, the exception is
    wrapped, not lost: what is raised is an abnormal exit to the caller that
    holds it. *)
Theorem splice_returns_to_caller
    (f : sys heap → completion functor_result * sys heap) (from : cont) (s : sys heap) :
  match f s with
  | (Value x, s') =>
      ∃ p, splice_trampoline heap f from s = (Value p, s') ∧
           sp p = from ∧
           (has_data (continuation_of_pair p) = true
            ↔ ∃ a, x = returns_ref a ∧ a ≠ 0)
  | (Raise t, s') =>
      ∃ exit_to, splice_trampoline heap f from s
                 = (Raise (abnormal_exit_exception exit_to (Some t)), s') ∧
                 sp (exit_pair exit_to) = from
  | (Abort, s') => splice_trampoline heap f from s = (Abort, s')
  end.
Proof.
  unfold splice_trampoline. destruct (f s) as [[x|t|] s']; [|by eexists|done].
  eexists. split; [reflexivity|]. split; [done|].
  unfold has_data. simpl. destruct x as [|a]; simpl.
  - split; [done|]. by intros (a & Ha & _).
  - destruct (Z.eqb_spec a 0) as [->|Ha]; simpl.
    + split; [done|]. by intros (a & [= <-] & Ha).
    + split; [|done]. intros _. by exists a.
Qed.

Variable execute_into :
  cleanup_trampoline_args heap → cont →
  (cleanup_trampoline_args heap → cont → sys heap → completion switch_pair * sys heap) →
  sys heap → completion switch_pair * sys heap.

(** What the assembly leaf is for: [execute_into] switches to the target
    stack and runs there the trampoline it is given, on the argument it is
    given. *)
Hypothesis execute_into_runs : ∀ a target tramp s,
  ∃ caller, execute_into a target tramp s = tramp a caller s.

(** X15: how a coroutine ends.  When the functor returns a continuation, or
    throws an exit token, whose stack pointer is not null, the startup
    trampoline has the stack deallocated by its allocator, once, and what the
    destination gets is the null pair (a terminated continuation), or, after
    an abnormal exit, the exception the token has captured.  With a null
    target the "invalid target stack" assertion fails, and an exception that
    is no exit token is not caught: in both cases the stack is not
    deallocated. *)
Theorem coroutine_exit_releases_stack
    (functor : continuation → sys heap → completion continuation * sys heap)
    (alloc : stack_allocator heap) (stackp : Z) (sp0 : cont) (s : sys heap) :
  let run := startup_trampoline heap execute_into functor
               (CleanupArgs heap (alloc, stackp) None) sp0 s in
  let leave (target : cont) (carried : option thrown) (s1 : sys heap) :=
    if stack_pointer target =? 0 then (Abort, s1)
    else (match carried with
          | Some t => Raise t
          | None => Value null_pair
          end, deallocate heap alloc stackp s1) in
  match functor (continuation_of_pair (SwitchPair sp0 0)) s with
  | (Value c, s1) => run = leave (sp (pair c)) None s1
  | (Raise (exit_exception exit_to), s1) => run = leave (sp (exit_pair exit_to)) None s1
  | (Raise (abnormal_exit_exception exit_to ptr), s1) =>
      run = leave (sp (exit_pair exit_to)) ptr s1
  | (Raise (plain e), s1) => run = (Raise (plain e), s1)
  | (Abort, s1) => run = (Abort, s1)
  end.
Proof.
  assert (Hcleanup : ∀ target carried s1,
            execute_into (CleanupArgs heap (alloc, stackp) carried) target
              (cleanup_trampoline heap) s1
            = (match carried with
               | Some t => Raise t
               | None => Value null_pair
               end, deallocate heap alloc stackp s1)).
  { intros target carried s1.
    destruct (execute_into_runs (CleanupArgs heap (alloc, stackp) carried) target
                (cleanup_trampoline heap) s1) as [caller ->].
    unfold cleanup_trampoline. simpl. by destruct carried. }
  unfold startup_trampoline. simpl.
  destruct (functor (continuation_of_pair (SwitchPair sp0 0)) s) as [[c|[e|x|x ptr]|] s1];
    try reflexivity; simpl; rewrite Hcleanup; reflexivity.
Qed.

End TrampolineFacts.

(** A functor that returns the continuation of its caller, which lives on
    the stack at 8192, with a coroutine stack at 4096 and a [free] that
    records what it is given. *)
Lemma coroutine_exit_releases_stack_witness :
  startup_trampoline (list Z)
    (λ a target tramp s, tramp a target s)
    (λ c s, (Value c, s))
    (CleanupArgs (list Z)
       (default_stack_allocator (list Z) (λ _ _ h, (ENOMEM, h)) (λ p h, p :: h), 4096) None)
    (Cont 8192) (Sys (list Z) [] [])
  = (Value null_pair, Sys (list Z) [4096] []).
Proof.
  exact (coroutine_exit_releases_stack (list Z)
           (λ a target tramp s, tramp a target s)
           (λ a target tramp s, ex_intro _ target eq_refl)
           (λ c s, (Value c, s))
           (default_stack_allocator (list Z) (λ _ _ h, (ENOMEM, h)) (λ p h, p :: h))
           4096 (Cont 8192) (Sys (list Z) [] [])).
Defined.

Section SignalExitFacts.

Variable heap : Type.

Variable execute_into :
  cleanup_trampoline_args heap → cont →
  (cleanup_trampoline_args heap → cont → sys heap → completion switch_pair * sys heap) →
  sys heap → completion switch_pair * sys heap.

Hypothesis execute_into_runs : ∀ a target tramp s,
  ∃ caller, execute_into a target tramp s = tramp a caller s.

(** X19: [signal_exit] ends a coroutine.  What its functor throws from the
    splicecc trampoline is an exit token whose [exit_to] is the continuation
    of the caller of [signal_exit]; when that token reaches the startup
    trampoline of the coroutine, the stack is deallocated and the caller gets
    the null pair, with no exception. *)
Theorem signal_exit_ends_coroutine (from : cont) (s : sys heap) :
  stack_pointer from ≠ 0 →
  ∃ token,
    splicecc_trampoline heap (signal_exit_functor heap) from s = (Raise token, s) ∧
    token = exit_exception (exit_of_pair (SwitchPair from 0)) ∧
    ∀ functor alloc stackp sp0 s0 s1,
      functor (continuation_of_pair (SwitchPair sp0 0)) s0 = (Raise token, s1) →
      startup_trampoline heap execute_into functor
        (CleanupArgs heap (alloc, stackp) None) sp0 s0
      = (Value null_pair, deallocate heap alloc stackp s1).
Proof.
  intros Hfrom. eexists. split; [reflexivity|]. split; [reflexivity|].
  intros functor alloc stackp sp0 s0 s1 Hf.
  unfold startup_trampoline. rewrite Hf. simpl.
  destruct (Z.eqb_spec (stack_pointer from) 0) as [Hz|_]; [done|].
  by destruct (execute_into_runs (CleanupArgs heap (alloc, stackp) None) from
                 (cleanup_trampoline heap) s1) as [caller ->].
Qed.

End SignalExitFacts.

Lemma signal_exit_ends_coroutine_witness :
  ∃ token,
    splicecc_trampoline (list Z) (signal_exit_functor (list Z)) (Cont 8192)
      (Sys (list Z) [] []) = (Raise token, Sys (list Z) [] []) ∧
    token = exit_exception (exit_of_pair (SwitchPair (Cont 8192) 0)).
Proof.
  destruct (signal_exit_ends_coroutine (list Z)
              (λ a target tramp s, tramp a target s)
              (λ a target tramp s, ex_intro _ target eq_refl)
              (Cont 8192) (Sys (list Z) [] []) ltac:(discriminate))
    as (token & Hrun & Htoken & _).
  exists token. split; [exact Hrun | exact Htoken].
Defined.

End SwitchFacts.

(** ** Properties of the listener multiplexer *)
Module SharedFutureFacts.
Import SharedFuture.

Section Facts.

Context {T : Type}.

(** C4: the code does not do what the claim says.  [add_listener] only
    appends a new promise and [signal] only fulfils the promises that are
    queued when it runs.  So a listener that registers once the multiplexer
    has been signaled, through [add_listener] or by copying a
    [shared_future], gets a future that is not ready although the multiplexer
    holds the result, and no later registration fulfils it; and a
    [shared_future] built from a future that is ready already, whose
    multiplexer is signaled inside its constructor, is not ready either. *)
Theorem late_listener_pending (this : nat) (v : T) (σ σ1 : world T) :
  signal this (Some v) σ = Some σ1 →
  (∃ f σ2,
     add_listener this σ1 = Some (f, σ2) ∧
     ready f (cells σ2) = false ∧
     listeners <$> muxes σ2 !! this = Some [f] ∧
     shared_state <$> muxes σ2 !! this = Some (Some v) ∧
     (∀ rhs, state rhs = Some this →
        shared_future_copy rhs σ1 = Some (SharedFutureOf (Some this) (Some f), σ2) ∧
        shared_future_ready (SharedFutureOf (Some this) (Some f)) σ2 = false) ∧
     (∀ that f' σ3, add_listener that σ2 = Some (f', σ3) →
        ready f (cells σ3) = false)) ∧
  (∃ x σ',
     shared_future_of_future this (Some v) σ = Some (x, σ') ∧
     shared_state <$> muxes σ' !! this = Some (Some v) ∧
     shared_future_ready x σ' = false).
Proof.
  unfold signal. destruct (muxes σ !! this) as [m|] eqn:Hm; [|done].
  intros [= <-]. set (st := set_all (listeners m) (cells σ)). split.
  - assert (Hnew : ready (length st) (st ++ [None]) = false).
    { unfold ready. by rewrite lookup_app_r, Nat.sub_diag by lia. }
    assert (Hadd : add_listener this
                     (World st (<[this := Multiplexer [] (Some v)]> (muxes σ)))
                   = Some (length st,
                           World (st ++ [None])
                             (<[this := Multiplexer [length st] (Some v)]>
                                (<[this := Multiplexer [] (Some v)]> (muxes σ))))).
    { unfold add_listener. simpl. by rewrite lookup_insert_eq. }
    eexists _, _. split; [exact Hadd|]. simpl.
    split; [done|]. split; [by rewrite lookup_insert_eq|].
    split; [by rewrite lookup_insert_eq|]. split.
    + intros rhs Hrhs. unfold shared_future_copy, shared_future_ready.
      rewrite Hrhs, Hadd. done.
    + intros that f' σ3. unfold add_listener. simpl.
      destruct (_ !! that) as [m'|]; [|done]. simpl. rewrite last_snoc.
      intros [= <- <-]. simpl. unfold ready in *.
      rewrite lookup_app_l by (rewrite length_app; simpl; lia). exact Hnew.
  - unfold shared_future_of_future, multiplexer_new, signal, add_listener. simpl.
    rewrite lookup_insert_eq. simpl. rewrite lookup_insert_eq. simpl.
    eexists _, _. split; [reflexivity|]. simpl.
    split; [by rewrite lookup_insert_eq|].
    unfold shared_future_ready, ready, get_future. simpl.
    by rewrite lookup_app_r, Nat.sub_diag by lia.
Qed.

End Facts.

Lemma late_listener_pending_witness :
  (∃ f σ2,
     add_listener 0 (World (T := nat) [Some true] (<[0%nat := Multiplexer [] (Some 7%nat)]> ∅))
     = Some (f, σ2) ∧
     ready f (cells σ2) = false ∧
     shared_state <$> muxes σ2 !! 0%nat = Some (Some 7%nat)) ∧
  (∃ x σ',
     shared_future_of_future 0 (Some 7%nat) one_listener_world = Some (x, σ') ∧
     shared_state <$> muxes σ' !! 0%nat = Some (Some 7%nat) ∧
     shared_future_ready x σ' = false).
Proof.
  destruct (late_listener_pending 0 7%nat one_listener_world
              (World [Some true] (<[0%nat := Multiplexer [] (Some 7%nat)]> ∅)))
    as [(f & σ2 & Hadd & Hready & _ & Hstate & _) Hshare].
  - vm_compute. reflexivity.
  - split; [|exact Hshare].
    exists f, σ2. split; [exact Hadd|]. split; [exact Hready | exact Hstate].
Defined.

(** C4, the failing inputs evaluated: a multiplexer with one listener is
    signaled with the result 7 and a second listener registers; and
    [share()] is called on a future that already holds 7.  In both runs the
    multiplexer holds the result and the new future is not ready. *)
Lemma late_listener_failing_input :
  (∃ σ1 f σ2,
     signal 0 (Some 7%nat) one_listener_world = Some σ1 ∧
     shared_state <$> muxes σ1 !! 0%nat = Some (Some 7%nat) ∧
     add_listener 0 σ1 = Some (f, σ2) ∧
     ready f (cells σ2) = false) ∧
  (∃ x σ',
     shared_future_of_future 0 (Some 7%nat) (World (T := nat) [] ∅) = Some (x, σ') ∧
     shared_state <$> muxes σ' !! 0%nat = Some (Some 7%nat) ∧
     shared_future_ready x σ' = false).
Proof.
  split.
  - eexists _, _, _. split; [vm_compute; reflexivity|].
    split; [vm_compute; reflexivity|]. split; [vm_compute; reflexivity|]. done.
  - eexists _, _. split; [vm_compute; reflexivity|].
    split; [vm_compute; reflexivity|]. done.
Qed.

(** The listeners queued when the signal arrives are the ones it fulfils. *)
Example queued_listener_fulfilled :
  ∃ σ1, signal 0 (Some 7%nat) one_listener_world = Some σ1 ∧
        ready 0 (cells σ1) = true.
Proof. eexists. split; [vm_compute; reflexivity|]. done. Qed.

(** *** Listeners and signals *)

Lemma set_all_length (ps : list promise) :
  ∀ st : store, length (set_all ps st) = length st.
Proof.
  induction ps as [|p ps IH]; intros st; simpl; [done|].
  rewrite IH. apply length_insert.
Qed.

Lemma set_all_lookup_out (ps : list promise) (f : future) :
  ∀ st : store, f ∉ ps → set_all ps st !! f = st !! f.
Proof.
  induction ps as [|p ps IH]; intros st Hf; simpl; [done|].
  rewrite IH by (intros Hin; apply Hf, elem_of_cons; by right).
  unfold set_value. apply list_lookup_insert_ne.
  intros ->. apply Hf, elem_of_cons. by left.
Qed.

Lemma set_all_ready_mono (ps : list promise) (f : future) :
  ∀ st : store, ready f st = true → ready f (set_all ps st) = true.
Proof.
  induction ps as [|p ps IH]; intros st Hf; simpl; [done|].
  apply IH. unfold ready, set_value in *.
  destruct (decide (p = f)) as [->|Hpf].
  - destruct (st !! f) as [c|] eqn:Hc; [|done].
    rewrite list_lookup_insert_eq; [done|]. by apply lookup_lt_Some in Hc.
  - by rewrite list_lookup_insert_ne.
Qed.

Lemma set_all_lookup_in (ps : list promise) (f : future) :
  ∀ st : store, f ∈ ps → (f < length st)%nat → ready f (set_all ps st) = true.
Proof.
  induction ps as [|p ps IH]; intros st Hin Hlen; [by apply elem_of_nil in Hin|].
  simpl. destruct (decide (f = p)) as [->|Hfp].
  - apply set_all_ready_mono. unfold ready, set_value.
    by rewrite list_lookup_insert_eq.
  - apply IH.
    + apply elem_of_cons in Hin as [?|?]; done.
    + unfold set_value. by rewrite length_insert.
Qed.

Section SignalFacts.

Context {T : Type}.

(** X16: [signal] stores the result in the multiplexer, empties its queue
    and fulfils every promise that was queued; the futures that were ready
    stay ready, the promises that were not in the queue are left as they
    were, and so are the other multiplexers. *)
Theorem signal_fulfils_queue (this : nat) (v : T) (m : shared_state_multiplexer T)
    (σ : world T) :
  muxes σ !! this = Some m →
  ∃ σ', signal this (Some v) σ = Some σ' ∧
        muxes σ' !! this = Some (Multiplexer [] (Some v)) ∧
        (∀ p, p ∈ listeners m → (p < length (cells σ))%nat → ready p (cells σ') = true) ∧
        (∀ f, ready f (cells σ) = true → ready f (cells σ') = true) ∧
        (∀ f, f ∉ listeners m → cells σ' !! f = cells σ !! f) ∧
        (∀ other, other ≠ this → muxes σ' !! other = muxes σ !! other).
Proof.
  intros Hm. unfold signal. rewrite Hm. eexists. split; [reflexivity|]. simpl.
  split; [by rewrite lookup_insert_eq|].
  split; [intros p Hp Hlen; by apply set_all_lookup_in|].
  split; [intros f Hf; by apply set_all_ready_mono|].
  split; [intros f Hf; by apply set_all_lookup_out|].
  intros other Hne. by rewrite lookup_insert_ne.
Qed.

(** X17: shared futures made before the result arrives.  A [shared_future]
    built from a future that is not ready, and a copy of it, are both not
    ready until the multiplexer is signaled, and both ready afterwards, the
    multiplexer holding the result. *)
Theorem shared_futures_ready_after_signal (this : nat) (v : T) (σ : world T) :
  ∃ x σ1 y σ2 σ3,
    shared_future_of_future this None σ = Some (x, σ1) ∧
    shared_future_copy x σ1 = Some (y, σ2) ∧
    signal this (Some v) σ2 = Some σ3 ∧
    state x = Some this ∧ state y = Some this ∧ listener x ≠ listener y ∧
    shared_future_ready x σ2 = false ∧ shared_future_ready y σ2 = false ∧
    shared_future_ready x σ3 = true ∧ shared_future_ready y σ3 = true ∧
    shared_state <$> muxes σ3 !! this = Some (Some v).
Proof.
  set (n := length (cells σ)).
  set (x0 := SharedFutureOf (Some this) (Some n)).
  set (σ1 := World (cells σ ++ [None])
               (<[this := Multiplexer [n] None]>
                  (<[this := Multiplexer [] None]> (muxes σ)))).
  set (y0 := SharedFutureOf (Some this) (Some (S n))).
  set (σ2 := World ((cells σ ++ [None]) ++ [None])
               (<[this := Multiplexer [n; S n] None]> (muxes σ1))).
  set (σ3 := World (set_all [n; S n] (cells σ2))
               (<[this := Multiplexer [] (Some v)]> (muxes σ2))).
  assert (Hlen1 : length (cells σ ++ [None]) = S n) by (rewrite length_app; simpl; lia).
  assert (H1 : shared_future_of_future this None σ = Some (x0, σ1)).
  { unfold shared_future_of_future, multiplexer_new, add_listener. simpl.
    by rewrite lookup_insert_eq. }
  assert (H2 : shared_future_copy x0 σ1 = Some (y0, σ2)).
  { unfold shared_future_copy, add_listener. simpl.
    rewrite lookup_insert_eq. simpl. by rewrite Hlen1. }
  assert (H3 : signal this (Some v) σ2 = Some σ3).
  { unfold signal. simpl. by rewrite lookup_insert_eq. }
  exists x0, σ1, y0, σ2, σ3.
  split; [done|]. split; [done|]. split; [done|].
  split; [done|]. split; [done|]. split; [intros [= Heq]; lia|].
  assert (Hlen2 : length (cells σ2) = S (S n)).
  { simpl. rewrite length_app, Hlen1. simpl. lia. }
  unfold shared_future_ready. simpl listener.
  split.
  { unfold ready. simpl. rewrite lookup_app_l by (rewrite Hlen1; lia).
    by rewrite lookup_app_r, Nat.sub_diag by (fold n; lia). }
  split.
  { unfold ready. simpl. rewrite lookup_app_r by (rewrite Hlen1; lia).
    by rewrite Hlen1, Nat.sub_diag. }
  split.
  { apply set_all_lookup_in; [apply elem_of_cons; by left|lia]. }
  split.
  { apply set_all_lookup_in; [apply elem_of_cons; right; apply elem_of_cons; by left|lia]. }
  simpl. by rewrite lookup_insert_eq.
Qed.

(** X18: copying needs a multiplexer.  The copy constructor yields a copy
    exactly when the source refers to a live multiplexer; the copy shares it
    and listens through a promise of its own, new and unfulfilled, leaving
    the readiness of every existing future as it was.  Copying a
    default-constructed [shared_future] fails the assertion
    [listener.valid()]. *)
Theorem copy_needs_multiplexer (rhs : shared_future) (σ : world T) :
  (is_Some (shared_future_copy rhs σ)
   ↔ ∃ this, state rhs = Some this ∧ is_Some (muxes σ !! this)) ∧
  (∀ y σ', shared_future_copy rhs σ = Some (y, σ') →
     state y = state rhs ∧
     listener y = Some (length (cells σ)) ∧
     shared_future_ready y σ' = false ∧
     ∀ f, (f < length (cells σ))%nat → ready f (cells σ') = ready f (cells σ)).
Proof.
  unfold shared_future_copy, add_listener.
  destruct (state rhs) as [this|] eqn:Hstate.
  - destruct (muxes σ !! this) as [m|] eqn:Hm; simpl.
    + rewrite last_snoc. split.
      * split; [intros _; exists this; by split|by intros _; eexists].
      * intros y σ' [= <- <-]. simpl. split; [done|]. split; [done|].
        unfold shared_future_ready, ready, get_future. simpl.
        split; [by rewrite lookup_app_r, Nat.sub_diag by lia|].
        intros f Hf. by rewrite lookup_app_l.
    + split; [|done]. split; [by intros [? ?]|].
      intros (this' & [= <-] & [? Hsome]). by rewrite Hm in Hsome.
  - split; [|done]. split; [by intros [? ?]|]. by intros (this & ? & _).
Qed.

End SignalFacts.

Lemma signal_fulfils_queue_witness :
  ∃ σ', signal 0 (Some 7%nat) one_listener_world = Some σ' ∧
        muxes σ' !! 0%nat = Some (Multiplexer [] (Some 7%nat)) ∧
        ready 0 (cells σ') = true.
Proof.
  destruct (signal_fulfils_queue 0 7%nat (Multiplexer [0%nat] None) one_listener_world
              eq_refl) as (σ' & Hsig & Hmux & Hready & _).
  exists σ'. split; [exact Hsig|]. split; [exact Hmux|].
  apply Hready; [apply elem_of_cons; by left | simpl; lia].
Defined.

Lemma copy_needs_multiplexer_witness :
  shared_future_copy (SharedFutureOf None None) one_listener_world = None ∧
  is_Some (shared_future_copy (SharedFutureOf (Some 0%nat) (Some 0%nat)) one_listener_world).
Proof.
  split.
  - destruct (shared_future_copy (SharedFutureOf None None) one_listener_world)
      as [r|] eqn:Hcopy; [|reflexivity].
    destruct (proj1 (proj1 (copy_needs_multiplexer (SharedFutureOf None None)
                              one_listener_world)) ltac:(rewrite Hcopy; by eexists))
      as (this & Hthis & _).
    discriminate Hthis.
  - apply (proj2 (proj1 (copy_needs_multiplexer (SharedFutureOf (Some 0%nat) (Some 0%nat))
                           one_listener_world))).
    exists 0%nat. split; [reflexivity|]. by eexists.
Defined.

End SharedFutureFacts.
